(** * Translation validator: a shallow embedding of [src/validator.ts]

    The validator checks gettext translations in two passes: a technical pass
    comparing printf-style placeholders, and a batch pass that asks a chat
    model for a linguistic review and merges its findings.

    Conventions of the embedding.
    - A JavaScript string is a [string]; the operations the validator applies
      to strings (matching the ASCII tokens, equality, substring search,
      concatenation) act character by character.
    - An array is a [list]; an in-place update of an element is a list insert
      at the element's index.
    - A value that may be [undefined] is an [option].
    - An index or a count is an integer.  [batchSize], a number the caller
      chooses freely, is an exact rational; what is proved about it concerns
      arguments on which floating-point arithmetic is exact.
    - [throw] is the left injection of a sum, the normal result the right one.
    - Console output is not part of the returned data and is left out. *)

From Stdlib Require Import ZArith QArith Lqa Lia Ascii String Permutation Sorted.
From Stdlib Require Import DecimalString DecimalNat.
From stdpp Require Import base list strings.

(** * The parts of the JavaScript runtime the validator calls *)

Module Js.

(** [String.prototype.startsWith]. *)
Definition startsWith (s p : string) : bool := String.prefix p s.

(** [String.prototype.includes]: [needle] occurs somewhere in [s]. *)
Fixpoint includes (s needle : string) : bool :=
  String.prefix needle s ||
  match s with
  | EmptyString => false
  | String _ s' => includes s' needle
  end.

(** [Array.prototype.join] on an array of strings. *)
Fixpoint join (sep : string) (l : list string) : string :=
  match l with
  | [] => ""
  | [x] => x
  | x :: l' => x +:+ sep +:+ join sep l'
  end.

(** [Array.prototype.includes] on an array of strings. *)
Definition array_includes (l : list string) (x : string) : bool :=
  bool_decide (x ∈ l).

(** [Array.prototype.sort] without a comparator orders strings by their code
    units.  The method sorts the receiver in place, so every later read of the
    array sees the sorted order. *)
Fixpoint sort_insert (x : string) (l : list string) : list string :=
  match l with
  | [] => [x]
  | y :: l' => if String.leb x y then x :: l else y :: sort_insert x l'
  end.

Fixpoint sort (l : list string) : list string :=
  match l with
  | [] => []
  | x :: l' => sort_insert x (sort l')
  end.

(** [a < b] on numbers. *)
Definition lt (a b : Q) : bool := negb (Qle_bool b a).

(** [ToIntegerOrInfinity] on a finite number: the fraction is dropped. *)
Definition ToIntegerOrInfinity (x : Q) : Z := Z.quot (Qnum x) (Z.pos (Qden x)).

(** [Array.prototype.slice(start, end)]: the bounds are made integers, a
    negative bound counts from the end of the array, and both bounds are
    clamped to the array. *)
Definition slice_bound (len : nat) (k : Z) : nat :=
  if (k <? 0)%Z then Z.to_nat (Z.max (Z.of_nat len + k) 0)
  else Nat.min (Z.to_nat k) len.

Definition slice {A} (l : list A) (start stop : Q) : list A :=
  let k := slice_bound (length l) (ToIntegerOrInfinity start) in
  let final := slice_bound (length l) (ToIntegerOrInfinity stop) in
  take (final - k) (drop k l).

(** ** [JSON.stringify] on strings *)

Definition dquote : ascii := "034".
Definition backslash : ascii := "092".

Definition hex_digit (n : N) : ascii :=
  if (n <? 10)%N then ascii_of_N (48 + n) else ascii_of_N (87 + n).

(** The quoting of one code unit: the quote, the backslash and the control
    characters are escaped, everything else stands for itself. *)
Definition escape_char (c : ascii) : string :=
  let n := N_of_ascii c in
  if (n =? 34)%N then String backslash (String dquote "")
  else if (n =? 92)%N then String backslash (String backslash "")
  else if (n =? 8)%N then String backslash "b"
  else if (n =? 12)%N then String backslash "f"
  else if (n =? 10)%N then String backslash "n"
  else if (n =? 13)%N then String backslash "r"
  else if (n =? 9)%N then String backslash "t"
  else if (n <? 32)%N then
    String backslash
      (String "u" (String "0" (String "0"
        (String (hex_digit (n / 16)) (String (hex_digit (n mod 16)) "")))))
  else String c "".

Fixpoint escape (s : string) : string :=
  match s with
  | EmptyString => ""
  | String c s' => escape_char c +:+ escape s'
  end.

Definition JSON_quote (s : string) : string :=
  String dquote (escape s +:+ String dquote "").

(** [JSON.stringify] of an array of strings. *)
Definition JSON_stringify_strings (l : list string) : string :=
  "[" +:+ join "," (JSON_quote <$> l) +:+ "]".

(** ** [JSON.parse] on a string literal *)

Definition unhex (c : ascii) : option N :=
  let n := N_of_ascii c in
  if (48 <=? n)%N && (n <=? 57)%N then Some (n - 48)%N
  else if (97 <=? n)%N && (n <=? 102)%N then Some (n - 87)%N
  else if (65 <=? n)%N && (n <=? 70)%N then Some (n - 55)%N
  else None.

Definition simple_escape (e : ascii) : option ascii :=
  let n := N_of_ascii e in
  if (n =? 34)%N then Some dquote
  else if (n =? 92)%N then Some backslash
  else if (n =? 47)%N then Some "/"%char
  else if (n =? 98)%N then Some "008"%char
  else if (n =? 102)%N then Some "012"%char
  else if (n =? 110)%N then Some "010"%char
  else if (n =? 114)%N then Some "013"%char
  else if (n =? 116)%N then Some "009"%char
  else None.

Definition push_char (c : ascii) (r : option (string * string))
  : option (string * string) :=
  match r with
  | Some (s, rest) => Some (String c s, rest)
  | None => None
  end.

(** Reads the characters of a string literal after its opening quote, up to
    and including the closing quote; returns the denoted string and the text
    that follows.  [None] is a syntax error. *)
Fixpoint unescape (s : string) : option (string * string) :=
  match s with
  | EmptyString => None
  | String c r =>
    if Ascii.eqb c dquote then Some (""%string, r)
    else if Ascii.eqb c backslash then
      match r with
      | EmptyString => None
      | String e r' =>
        if Ascii.eqb e "u" then
          match r' with
          | String h1 (String h2 (String h3 (String h4 r''))) =>
            match unhex h1, unhex h2, unhex h3, unhex h4 with
            | Some a, Some b, Some c', Some d =>
              let n := (((a * 16 + b) * 16 + c') * 16 + d)%N in
              if (n <? 256)%N then push_char (ascii_of_N n) (unescape r'')
              else None
            | _, _, _, _ => None
            end
          | _ => None
          end
        else
          match simple_escape e with
          | Some ch => push_char ch (unescape r')
          | None => None
          end
      end
    else if (N_of_ascii c <? 32)%N then None
    else push_char c (unescape r)
  end.

Definition JSON_unquote (s : string) : option (string * string) :=
  match s with
  | String c r => if Ascii.eqb c dquote then unescape r else None
  | EmptyString => None
  end.

(** A literal text must come next. *)
Fixpoint expect (lit s : string) : option string :=
  match lit, s with
  | EmptyString, _ => Some s
  | String a lit', String b s' => if Ascii.eqb a b then expect lit' s' else None
  | String _ _, EmptyString => None
  end.

(** [new Set(keys)] followed by a spread: the keys in the order in which they
    were first added. *)
Fixpoint Set_add_all (seen keys : list string) : list string :=
  match keys with
  | [] => seen
  | k :: keys' =>
    if array_includes seen k then Set_add_all seen keys'
    else Set_add_all (seen ++ [k]) keys'
  end.

Definition Set_from (keys : list string) : list string := Set_add_all [] keys.

End Js.

(** * Types ([types.ts]) *)

Inductive ProblemType : Type :=
  | placeholder_mismatch
  | linguistic_review
  | grammar_issue.

Record ValidationProblem : Type := {
  type : ProblemType;
  description : string
}.

(** [suggestedFix] is declared a string; at run time the batch validator
    stores whatever the model's entry holds in [suggested_fix], which may be
    missing, hence the option. *)
Record TranslationIssue : Type := {
  msgid : string;
  msgstr : string;
  problems : list ValidationProblem;
  suggestedFix : option string
}.

Record ValidatorConfig : Type := {
  provider : string;
  modelName : option string;
  apiKey : option string;
  baseUrl : option string
}.

Global Instance ProblemType_eq_dec : EqDecision ProblemType.
Proof. solve_decision. Defined.

Global Instance ValidationProblem_eq_dec : EqDecision ValidationProblem.
Proof. solve_decision. Defined.

Global Instance TranslationIssue_eq_dec : EqDecision TranslationIssue.
Proof. solve_decision. Defined.

(** An entry of the parsed PO file; the validator reads [msgid] and
    [msgstr[0]] only. *)
Module Item.
Record t : Type := { msgid : string; msgstr : list string }.
End Item.

(** One kept entry: [{msgid: item.msgid, msgstr: item.msgstr[0]}]. *)
Module Translation.
Record t : Type := { msgid : string; msgstr : string }.
End Translation.

Global Instance Translation_eq_dec : EqDecision Translation.t.
Proof. solve_decision. Defined.

(** * Placeholder extraction and the technical check *)

(** The character class [[sdfg]]. *)
Definition is_conversion (c : ascii) : bool :=
  Ascii.eqb c "s" || Ascii.eqb c "d" || Ascii.eqb c "f" || Ascii.eqb c "g".

(** [text.match(/%[sdfg]/g) || []]: the matches of a global search, which
    resumes after the end of each match. *)
Fixpoint extractPlaceholders (text : string) : list string :=
  match text with
  | EmptyString => []
  | String c tl =>
    match tl with
    | EmptyString => []
    | String c' rest =>
      if Ascii.eqb c "%" && is_conversion c'
      then String c (String c' "") :: extractPlaceholders rest
      else extractPlaceholders tl
    end
  end.

(** The positions at which the global search matches, counted from [pos]. *)
Fixpoint match_positions (pos : nat) (text : string) : list nat :=
  match text with
  | EmptyString => []
  | String c tl =>
    match tl with
    | EmptyString => []
    | String c' rest =>
      if Ascii.eqb c "%" && is_conversion c'
      then pos :: match_positions (S (S pos)) rest
      else match_positions (S pos) tl
    end
  end.

Definition missing_prefix : string := "Missing placeholder(s): ".

Definition checkPlaceholderConsistency (msgid msgstr : string)
  : list ValidationProblem :=
  let originalPlaceholders := Js.sort (extractPlaceholders msgid) in
  let translatedPlaceholders := Js.sort (extractPlaceholders msgstr) in
  if negb (String.eqb (Js.JSON_stringify_strings originalPlaceholders)
                      (Js.JSON_stringify_strings translatedPlaceholders))
  then
    [ {| type := placeholder_mismatch;
         description :=
           missing_prefix +:+
           Js.join ", "
             (List.filter
                (fun p => negb (Js.array_includes translatedPlaceholders p))
                originalPlaceholders) |} ]
  else [].


(** * Errors and the chat models *)

(** A thrown value, as far as the validator inspects it: its [message]. *)
Record JsError : Type := { message : option string }.

(** [new Error(text)]. *)
Definition Error (text : string) : JsError := {| message := Some text |}.

Inductive ChatModel : Type :=
  | ChatOllama (baseUrl model : string)
  | ChatAnthropic (anthropicApiKey modelName : string)
  | ChatOpenAI (openAIApiKey modelName : string).

(** [!value] on an optional string: [undefined] and the empty string are
    falsy. *)
Definition truthy (o : option string) : bool :=
  match o with
  | Some s => negb (String.eqb s "")
  | None => false
  end.

(** [value || fallback]. *)
Definition or_else (o : option string) (fallback : string) : string :=
  match o with
  | Some s => if String.eqb s "" then fallback else s
  | None => fallback
  end.

Definition initializeModel (config : ValidatorConfig) : JsError + ChatModel :=
  if String.eqb (provider config) "ollama" then
    inr (ChatOllama (or_else (baseUrl config) "http://localhost:11434")
                    (or_else (modelName config) "llama2"))
  else if String.eqb (provider config) "anthropic" then
    if negb (truthy (apiKey config)) then
      inl (Error "Anthropic API key is required")
    else
      inr (ChatAnthropic (default "" (apiKey config))
                         (or_else (modelName config) "claude-3-sonnet-20240229"))
  else if String.eqb (provider config) "openai" then
    if negb (truthy (apiKey config)) then
      inl (Error "OpenAI API key is required")
    else
      inr (ChatOpenAI (default "" (apiKey config))
                      (or_else (modelName config) "gpt-3.5-turbo"))
  else
    inl (Error ("Unsupported provider: " +:+ provider config)).

Record TranslationValidator : Type := { model : ChatModel }.

(** The constructor. *)
Definition new_TranslationValidator (config : ValidatorConfig)
  : JsError + TranslationValidator :=
  match initializeModel config with
  | inl e => inl e
  | inr m => inr {| model := m |}
  end.

(** * The model's answer *)

(** One element of [result.translations] after [JSON.parse], for answers
    whose fields, where present, have the types the prompt asks for.  A
    missing field reads as [undefined].  The index is an integer: a number
    with a fraction points to no element, like an index outside the batch. *)
Record Validation : Type := {
  index : option Z;
  has_issues : option bool;
  issues : option (list string);
  suggested_fix : option string
}.

(** The parsed answer; an element of [translations] may be [null]. *)
Module ModelResult.
Record t : Type := { translations : option (list (option Validation)) }.
End ModelResult.

(** What lies outside the validator's own code: the file system, the PO
    parser, the chat model behind [this.model.generate], and the engine's
    [trim], [JSON.parse] and built-in errors.  [generate] receives the number
    of the call, the batch and the language from which the prompt is built;
    it answers with the text of the first generation or fails. *)
Class Runtime : Type := {
  readFileSync : string -> JsError + string;
  po_parse : string -> JsError + list Item.t;
  generate : ChatModel -> nat -> list Translation.t -> string -> JsError + string;
  trim : string -> string;
  JSON_parse : string -> JsError + ModelResult.t;
  TypeError_not_iterable : JsError;
  TypeError_join : JsError;
  SyntaxError_JSON : JsError
}.

(** * Problems as JSON texts *)

Definition type_name (t : ProblemType) : string :=
  match t with
  | placeholder_mismatch => "placeholder_mismatch"
  | linguistic_review => "linguistic_review"
  | grammar_issue => "grammar_issue"
  end.

Definition type_of_name (s : string) : option ProblemType :=
  if String.eqb s "placeholder_mismatch" then Some placeholder_mismatch
  else if String.eqb s "linguistic_review" then Some linguistic_review
  else if String.eqb s "grammar_issue" then Some grammar_issue
  else None.

(** [JSON.stringify(p)] for a problem: the keys in the order of the object
    literal, without spaces. *)
Definition JSON_stringify_problem (p : ValidationProblem) : string :=
  "{" +:+ Js.JSON_quote "type" +:+ ":" +:+ Js.JSON_quote (type_name (type p))
  +:+ "," +:+ Js.JSON_quote "description" +:+ ":"
  +:+ Js.JSON_quote (description p) +:+ "}".

(** [JSON.parse] on the texts [JSON_stringify_problem] writes. *)
Definition JSON_parse_problem (text : string) : option ValidationProblem :=
  r ← Js.expect "{" text;
  '(k1, r) ← Js.JSON_unquote r;
  r ← Js.expect ":" r;
  '(ty, r) ← Js.JSON_unquote r;
  r ← Js.expect "," r;
  '(k2, r) ← Js.JSON_unquote r;
  r ← Js.expect ":" r;
  '(d, r) ← Js.JSON_unquote r;
  r ← Js.expect "}" r;
  t ← type_of_name ty;
  if String.eqb k1 "type" && String.eqb k2 "description" && String.eqb r ""
  then Some {| type := t; description := d |}
  else None.

(** [[...new Set(problems.map(p => JSON.stringify(p)))].map(p => JSON.parse(p))] *)
Definition dedup_problems (problems : list ValidationProblem)
  : option (list ValidationProblem) :=
  mapM JSON_parse_problem (Js.Set_from (JSON_stringify_problem <$> problems)).

(** * The batch validator *)

Definition newline : string := String "010" "".

Section Validator.
Context `{Runtime}.

(** [translations[validation.index - 1]]: a missing index makes the
    subscript [NaN]; a subscript outside the array reads as [undefined]. *)
Definition lookup_translation (translations : list Translation.t)
    (index : option Z) : option Translation.t :=
  match index with
  | None => None
  | Some i =>
    let k := (i - 1)%Z in
    if (k <? 0)%Z then None else translations !! Z.to_nat k
  end.

(** The condition guarding the linguistic finding:
    [has_issues && suggested_fix && suggested_fix !== translation.msgstr]. *)
Definition linguistic_condition (validation : Validation)
    (translation : Translation.t) : bool :=
  match has_issues validation with Some true => true | _ => false end
  && truthy (suggested_fix validation)
  && negb (bool_decide
             (suggested_fix validation = Some (Translation.msgstr translation))).

(** The end of the loop body: push an issue when there are problems. *)
Definition emit (validation : Validation) (translation : Translation.t)
    (problems : list ValidationProblem) : JsError + option TranslationIssue :=
  if (0 <? length problems)%nat then
    match dedup_problems problems with
    | Some deduplicated =>
      inr (Some {| msgid := Translation.msgid translation;
                   msgstr := Translation.msgstr translation;
                   problems := deduplicated;
                   suggestedFix := suggested_fix validation |})
    | None => inl SyntaxError_JSON
    end
  else inr None.

(** The body of [for (const validation of result.translations)]: either it
    throws, or it skips the entry, or it pushes one issue. *)
Definition validate_entry (translations : list Translation.t)
    (validation : option Validation) : JsError + option TranslationIssue :=
  match validation with
  | None => inr None
  | Some validation =>
    match lookup_translation translations (index validation) with
    | None => inr None
    | Some translation =>
      let placeholderProblems :=
        checkPlaceholderConsistency (Translation.msgid translation)
                                    (Translation.msgstr translation) in
      let problems :=
        if (0 <? length placeholderProblems)%nat
        then [] ++ placeholderProblems else [] in
      if linguistic_condition validation translation then
        match issues validation with
        | None => inl TypeError_join
        | Some strings =>
          emit validation translation
            (problems ++ [ {| type := linguistic_review;
                              description := Js.join newline strings |} ])
        end
      else emit validation translation problems
    end
  end.

(** The loop over the answer's entries.  [issues] is the array declared
    before the [try]: what was pushed before a throw stays in it. *)
Fixpoint validate_entries (translations : list Translation.t)
    (entries : list (option Validation)) (issues : list TranslationIssue)
  : list TranslationIssue * option JsError :=
  match entries with
  | [] => (issues, None)
  | validation :: entries' =>
    match validate_entry translations validation with
    | inl e => (issues, Some e)
    | inr None => validate_entries translations entries' issues
    | inr (Some issue) =>
      validate_entries translations entries' (issues ++ [issue])
    end
  end.

(** The body of the inner [try]: the issues pushed, and the error raised if
    the body did not finish. *)
Definition ai_validation (this : TranslationValidator) (call : nat)
    (translations : list Translation.t) (targetLanguage : string)
  : list TranslationIssue * option JsError :=
  match generate (model this) call translations targetLanguage with
  | inl e => ([], Some e)
  | inr text =>
    let responseText := trim text in
    if negb (Js.startsWith responseText "{") then
      ([], Some (Error "Response is not in JSON format"))
    else
      match JSON_parse responseText with
      | inl e => ([], Some e)
      | inr result =>
        match ModelResult.translations result with
        | None => ([], Some TypeError_not_iterable)
        | Some entries => validate_entries translations entries []
        end
      end
  end.

(** The test of the [catch] clause. *)
Definition is_model_not_found (e : JsError) : bool :=
  match message e with
  | Some text => Js.includes text "model" && Js.includes text "not found"
  | None => false
  end.

(** The [catch] of the inner [try]; the outer [try] only throws again what
    reaches it. *)
Definition validateBatch (this : TranslationValidator) (call : nat)
    (translations : list Translation.t) (targetLanguage : string)
  : JsError + list TranslationIssue :=
  match ai_validation this call translations targetLanguage with
  | (issues, None) => inr issues
  | (issues, Some error) =>
    if is_model_not_found error then inl error else inr issues
  end.

(** * The file validator *)

(** [poData.items.filter(item => item.msgstr[0]).map(...)] *)
Definition validTranslations (items : list Item.t) : list Translation.t :=
  (fun item => {| Translation.msgid := Item.msgid item;
                  Translation.msgstr := default "" (head (Item.msgstr item)) |})
  <$> List.filter (fun item => truthy (head (Item.msgstr item))) items.

Definition default_batchSize : Q := 10.

Definition generic_fix : string :=
  "Ensure all placeholders are present in translation".

(** The technical pass, pushing onto [allIssues]. *)
Fixpoint technical_pass (kept : list Translation.t)
    (allIssues : list TranslationIssue) : list TranslationIssue :=
  match kept with
  | [] => allIssues
  | translation :: kept' =>
    let technicalProblems :=
      checkPlaceholderConsistency (Translation.msgid translation)
                                  (Translation.msgstr translation) in
    if (0 <? length technicalProblems)%nat then
      technical_pass kept'
        (allIssues ++ [ {| msgid := Translation.msgid translation;
                           msgstr := Translation.msgstr translation;
                           problems := technicalProblems;
                           suggestedFix := Some generic_fix |} ])
    else technical_pass kept' allIssues
  end.

(** [for (let i = 0; i < kept.length; i += batchSize) batches.push(...)].
    Each unit of fuel pays for one test of the loop condition; [None] means
    the fuel ran out before the loop ended. *)
Fixpoint batch_loop (fuel : nat) (kept : list Translation.t) (batchSize : Q)
    (i : Q) (batches : list (list Translation.t))
  : option (list (list Translation.t)) :=
  match fuel with
  | O => None
  | S fuel' =>
    if Js.lt i (inject_Z (Z.of_nat (length kept))) then
      batch_loop fuel' kept batchSize (i + batchSize)%Q
                 (batches ++ [Js.slice kept i (i + batchSize)%Q])
    else Some batches
  end.

(** The predicate of [allIssues.find]. *)
Definition same_entry (batchIssue issue : TranslationIssue) : Prop :=
  msgid issue = msgid batchIssue ∧ msgstr issue = msgstr batchIssue.

Global Instance same_entry_dec b i : Decision (same_entry b i).
Proof. unfold same_entry. apply _. Defined.

(** The body of the merge loop.  The issue found is updated in place, which
    is an update of the list at the position where [find] met it. *)
Definition merge_issue (allIssues : list TranslationIssue)
    (batchIssue : TranslationIssue) : list TranslationIssue :=
  match list_find (same_entry batchIssue) allIssues with
  | Some (i, existingIssue) =>
    <[ i := {| msgid := msgid existingIssue;
               msgstr := msgstr existingIssue;
               problems := problems existingIssue ++ problems batchIssue;
               suggestedFix :=
                 if bool_decide (suggestedFix batchIssue ≠ Some generic_fix)
                 then suggestedFix batchIssue
                 else suggestedFix existingIssue |} ]> allIssues
  | None => allIssues ++ [batchIssue]
  end.

Definition merge_issues (allIssues batchIssues : list TranslationIssue)
  : list TranslationIssue :=
  fold_left merge_issue batchIssues allIssues.

(** The loop over [batches.entries()] inside its [try]: the accumulated
    issues and the final value of [aiValidationSuccessful].  A throw of
    [validateBatch] leaves the loop and is caught. *)
Fixpoint batch_pass (this : TranslationValidator) (targetLanguage : string)
    (batches : list (list Translation.t)) (index : nat)
    (allIssues : list TranslationIssue) : list TranslationIssue * bool :=
  match batches with
  | [] => (allIssues, true)
  | batch :: batches' =>
    match validateBatch this index batch targetLanguage with
    | inl _ => (allIssues, false)
    | inr batchIssues =>
      batch_pass this targetLanguage batches' (S index)
                 (merge_issues allIssues batchIssues)
    end
  end.

(** [validatePoFile]: [None] when the fuel does not suffice for the batching
    loop, [Some (inl e)] when the file cannot be read or parsed. *)
Definition validatePoFile (this : TranslationValidator) (fuel : nat)
    (filePath targetLanguage : string) (batchSize : Q)
  : option (JsError + list TranslationIssue) :=
  match readFileSync filePath with
  | inl fileError => Some (inl fileError)
  | inr poContent =>
    match po_parse poContent with
    | inl fileError => Some (inl fileError)
    | inr items =>
      let kept := validTranslations items in
      let allIssues := technical_pass kept [] in
      match batch_loop fuel kept batchSize 0 [] with
      | None => None
      | Some batches =>
        Some (inr (fst (batch_pass this targetLanguage batches 0 allIssues)))
      end
    end
  end.

End Validator.

(** [new TranslationValidator(config)] followed by [validatePoFile], the
    sequence of [test/test-local.ts] and of the README. *)
Definition validate_with `{Runtime} (config : ValidatorConfig) (fuel : nat)
    (filePath targetLanguage : string) (batchSize : Q)
  : option (JsError + list TranslationIssue) :=
  match new_TranslationValidator config with
  | inl e => Some (inl e)
  | inr validator =>
    validatePoFile validator fuel filePath targetLanguage batchSize
  end.

(** * Notions used to state the properties *)

(** The provider names the constructor knows, and those of the hosted
    providers, which need a key. *)
Definition recognized (p : string) : Prop :=
  p = "ollama"%string \/ p = "anthropic"%string \/ p = "openai"%string.

Definition hosted (p : string) : Prop :=
  p = "anthropic"%string \/ p = "openai"%string.

(** The four recognised tokens. *)
Definition tokens : list string := ["%s"; "%d"; "%f"; "%g"]%string.

(** A token stands at position [i] of [text]. *)
Definition token_at (text : string) (i : nat) : bool :=
  bool_decide (substring i 2 text ∈ tokens).

(** Every occurrence of a token in [text], from left to right. *)
Definition occurrences (text : string) : list string :=
  (fun i => substring i 2 text)
  <$> List.filter (token_at text) (seq 0 (String.length text)).

(** Characters of a width, a precision, a flag, a positional argument or a
    length modifier. *)
Definition is_modifier (c : ascii) : bool :=
  let n := N_of_ascii c in
  ((48 <=? n)%N && (n <=? 57)%N)
  || Ascii.eqb c "." || Ascii.eqb c "$" || Ascii.eqb c "*"
  || Ascii.eqb c "-" || Ascii.eqb c "+" || Ascii.eqb c " " || Ascii.eqb c "#"
  || Ascii.eqb c "l" || Ascii.eqb c "h" || Ascii.eqb c "L" || Ascii.eqb c "z".

Fixpoint all_modifiers (s : string) : bool :=
  match s with
  | EmptyString => true
  | String c s' => is_modifier c && all_modifiers s'
  end.

(** The concatenation of a list of strings. *)
Definition concat_strings (l : list string) : string :=
  foldr String.append ""%string l.

(** [needle] occurs in [text]. *)
Definition contains (text needle : string) : Prop :=
  exists before after, text = before +:+ needle +:+ after.

(** The order of the default sort. *)
Definition code_unit_le (a b : string) : Prop := String.leb a b = true.

(** The placeholders the description of a mismatch lists. *)
Definition listed_missing (msgid msgstr : string) : list string :=
  List.filter
    (fun p => negb (Js.array_includes (Js.sort (extractPlaceholders msgstr)) p))
    (Js.sort (extractPlaceholders msgid)).

(** Deduplication by equality of content, keeping the first occurrence of
    every element in its place. *)
Fixpoint first_seen {A} `{EqDecision A} (l : list A) : list A :=
  match l with
  | [] => []
  | x :: l' => x :: filter (fun y => y ≠ x) (first_seen l')
  end.

(** The problems an entry of the answer accumulates for the pair it points
    to: the checker's problems, then one linguistic problem when the entry
    reports issues and carries a non-empty suggested fix other than the
    translation. *)
Definition entry_problems (validation : Validation)
    (translation : Translation.t) : list ValidationProblem :=
  checkPlaceholderConsistency (Translation.msgid translation)
                              (Translation.msgstr translation)
  ++ match has_issues validation, suggested_fix validation with
     | Some true, Some suggestion =>
       if decide (suggestion ≠ ""%string
                  ∧ suggestion ≠ Translation.msgstr translation)
       then [ {| type := linguistic_review;
                 description :=
                   Js.join newline (default [] (issues validation)) |} ]
       else []
     | _, _ => []
     end.

(** What one entry of the answer should yield: nothing for [null] or for an
    index outside the batch, otherwise an issue exactly when there are
    problems. *)
Definition expected_issue (batch : list Translation.t)
    (entry : option Validation) : option TranslationIssue :=
  validation ← entry;
  translation ← lookup_translation batch (index validation);
  let ps := entry_problems validation translation in
  match ps with
  | [] => None
  | _ :: _ =>
    Some {| msgid := Translation.msgid translation;
            msgstr := Translation.msgstr translation;
            problems := first_seen ps;
            suggestedFix := suggested_fix validation |}
  end.

(** The entry would make [validation.issues.join] fail: the linguistic
    finding is due but the entry has no [issues]. *)
Definition lacks_issues (batch : list Translation.t)
    (entry : option Validation) : Prop :=
  exists validation translation,
    entry = Some validation
    /\ lookup_translation batch (index validation) = Some translation
    /\ linguistic_condition validation translation = true
    /\ issues validation = None.

(** The issue that replaces [existing] when a batch issue for the same entry
    is merged into it. *)
Definition merged (existing batchIssue : TranslationIssue) : TranslationIssue :=
  {| msgid := msgid existing;
     msgstr := msgstr existing;
     problems := problems existing ++ problems batchIssue;
     suggestedFix :=
       if decide (suggestedFix batchIssue = Some generic_fix)
       then suggestedFix existing
       else suggestedFix batchIssue |}.

(** The entry an issue is about. *)
Definition entry_of (issue : TranslationIssue) : Translation.t :=
  {| Translation.msgid := msgid issue; Translation.msgstr := msgstr issue |}.

(** The two kinds of problem the validator writes. *)
Definition produced_kind (p : ValidationProblem) : Prop :=
  type p = placeholder_mismatch \/ type p = linguistic_review.

(** An issue about one of the entries [kept], with problems of the produced
    kinds only. *)
Definition sound_issue (kept : list Translation.t) (issue : TranslationIssue)
  : Prop :=
  entry_of issue ∈ kept /\ Forall produced_kind (problems issue).

(** Every issue of [earlier] is still in [later], at the same position and
    for the same entry, with its problems possibly followed by others. *)
Definition keeps_issues (earlier later : list TranslationIssue) : Prop :=
  forall i issue,
    earlier !! i = Some issue ->
    exists issue',
      later !! i = Some issue'
      /\ msgid issue' = msgid issue /\ msgstr issue' = msgstr issue
      /\ problems issue `prefix_of` problems issue'.

(** * A sample run

    The PO file of the README with one untranslated entry added, validated in
    batches of two as [test/test-local.ts] does, against scripted answers of
    the model. *)

Module Sample.

(** Texts are written with apostrophes where the file or the answer has
    double quotes. *)
Fixpoint quoted (s : string) : string :=
  match s with
  | EmptyString => ""
  | String c s' => String (if Ascii.eqb c "'" then Js.dquote else c) (quoted s')
  end.

Definition poContent : string :=
  quoted (Js.join newline
    [ "msgid 'Welcome to the learning path %s.'";
      "msgstr 'Macibu cela nosaukums'"; "";
      "msgid 'Hello, world!'";
      "msgstr 'Sveika, pasaule!'"; "";
      "msgid 'Goodbye, %s'";
      "msgstr ''"; "";
      "msgid 'You have completed %d courses'";
      "msgstr 'Tu esi pabeidzis %d kursus'" ]%string).

Definition items : list Item.t :=
  [ {| Item.msgid := "Welcome to the learning path %s.";
       Item.msgstr := ["Macibu cela nosaukums"%string] |};
    {| Item.msgid := "Hello, world!";
       Item.msgstr := ["Sveika, pasaule!"%string] |};
    {| Item.msgid := "Goodbye, %s";
       Item.msgstr := [""%string] |};
    {| Item.msgid := "You have completed %d courses";
       Item.msgstr := ["Tu esi pabeidzis %d kursus"%string] |} ].

(** The answer to the first batch: a finding for entry 1, none for entry 2. *)
Definition answer1 : string :=
  quoted ("{'translations':[{'index':1,'has_issues':true,"
          +:+ "'issues':['Not a translation of the original'],"
          +:+ "'suggested_fix':'Laipni ludzam macibu cela %s.'},"
          +:+ "{'index':2,'has_issues':false,'issues':[],"
          +:+ "'suggested_fix':'Sveika, pasaule!'}]}").

Definition entries1 : list (option Validation) :=
  [ Some {| index := Some 1%Z; has_issues := Some true;
            issues := Some ["Not a translation of the original"%string];
            suggested_fix := Some "Laipni ludzam macibu cela %s."%string |};
    Some {| index := Some 2%Z; has_issues := Some false;
            issues := Some [];
            suggested_fix := Some "Sveika, pasaule!"%string |} ].

Definition result1 : ModelResult.t :=
  {| ModelResult.translations := Some entries1 |}.

(** The answer to the second batch: a finding of style for its only entry. *)
Definition answer2 : string :=
  quoted ("{'translations':[{'index':1,'has_issues':true,"
          +:+ "'issues':['Unnatural word order'],"
          +:+ "'suggested_fix':'Tu esi pabeidzis %d kursus!'}]}").

Definition result2 : ModelResult.t :=
  {| ModelResult.translations := Some
       [ Some {| index := Some 1%Z; has_issues := Some true;
                 issues := Some ["Unnatural word order"%string];
                 suggested_fix := Some "Tu esi pabeidzis %d kursus!"%string |} ] |}.

(** An answer to the first batch whose second entry reports issues without
    the [issues] field. *)
Definition answer_partial : string :=
  quoted ("{'translations':[{'index':1,'has_issues':true,"
          +:+ "'issues':['Not a translation of the original'],"
          +:+ "'suggested_fix':'Laipni ludzam macibu cela %s.'},"
          +:+ "{'index':2,'has_issues':true,"
          +:+ "'suggested_fix':'Sveiki, pasaule!'}]}").

Definition result_partial : ModelResult.t :=
  {| ModelResult.translations := Some
       [ Some {| index := Some 1%Z; has_issues := Some true;
                 issues := Some ["Not a translation of the original"%string];
                 suggested_fix := Some "Laipni ludzam macibu cela %s."%string |};
         Some {| index := Some 2%Z; has_issues := Some true;
                 issues := None;
                 suggested_fix := Some "Sveiki, pasaule!"%string |} ] |}.

Definition is_space (c : ascii) : bool :=
  let n := N_of_ascii c in
  (n =? 32)%N || ((9 <=? n)%N && (n <=? 13)%N).

Fixpoint trim_start (s : string) : string :=
  match s with
  | String c s' => if is_space c then trim_start s' else s
  | EmptyString => ""
  end.

Fixpoint trim_end (s : string) : string :=
  match s with
  | String c s' =>
    match trim_end s' with
    | EmptyString => if is_space c then "" else String c ""
    | t => String c t
    end
  | EmptyString => ""
  end.

(** A runtime whose model gives the scripted answers. *)
Definition runtime (answers : nat -> JsError + string) : Runtime :=
  {| readFileSync := fun path =>
       if String.eqb path "test/sample.po" then inr poContent
       else inl (Error ("ENOENT: no such file or directory, open " +:+ path));
     po_parse := fun content =>
       if String.eqb content poContent then inr items else inr [];
     generate := fun _ call _ _ => answers call;
     trim := fun s => trim_end (trim_start s);
     JSON_parse := fun text =>
       if String.eqb text answer1 then inr result1
       else if String.eqb text answer2 then inr result2
       else if String.eqb text answer_partial then inr result_partial
       else inl (Error "Unexpected token in JSON");
     TypeError_not_iterable := Error "result.translations is not iterable";
     TypeError_join :=
       Error "Cannot read properties of undefined (reading 'join')";
     SyntaxError_JSON := Error "Unexpected token in JSON" |}.

(** Both batches are answered. *)
Definition answered : Runtime :=
  runtime (fun call => if (call =? 0)%nat then inr answer1 else inr answer2).

(** The provider does not know the model when the second batch is sent. *)
Definition model_missing : Runtime :=
  runtime (fun call =>
    if (call =? 0)%nat then inr answer1
    else inl (Error "model 'llama2' not found, try pulling it first")).

(** The first answer lacks a field, the second is not JSON. *)
Definition flaky : Runtime :=
  runtime (fun call =>
    if (call =? 0)%nat then inr answer_partial
    else inr "Sure! Here is my review of the translations."%string).

Definition validator : TranslationValidator :=
  {| model := ChatOllama "http://localhost:11434" "llama2" |}.

Definition entry1 : Translation.t :=
  {| Translation.msgid := "Welcome to the learning path %s.";
     Translation.msgstr := "Macibu cela nosaukums" |}.
Definition entry2 : Translation.t :=
  {| Translation.msgid := "Hello, world!";
     Translation.msgstr := "Sveika, pasaule!" |}.
Definition entry3 : Translation.t :=
  {| Translation.msgid := "You have completed %d courses";
     Translation.msgstr := "Tu esi pabeidzis %d kursus" |}.

(** The technical issue about the first entry, and the issue the batch
    validator returns for it. *)
Definition technical1 : TranslationIssue :=
  {| msgid := "Welcome to the learning path %s.";
     msgstr := "Macibu cela nosaukums";
     problems := [ {| type := placeholder_mismatch;
                      description := "Missing placeholder(s): %s" |} ];
     suggestedFix := Some "Ensure all placeholders are present in translation"%string |}.

Definition batchIssue1 : TranslationIssue :=
  {| msgid := "Welcome to the learning path %s.";
     msgstr := "Macibu cela nosaukums";
     problems := [ {| type := placeholder_mismatch;
                      description := "Missing placeholder(s): %s" |};
                   {| type := linguistic_review;
                      description := "Not a translation of the original" |} ];
     suggestedFix := Some "Laipni ludzam macibu cela %s."%string |}.

(** What [validatePoFile] returns when both batches are answered. *)
Definition report : list TranslationIssue :=
  [ {| msgid := "Welcome to the learning path %s.";
       msgstr := "Macibu cela nosaukums";
       problems :=
         [ {| type := placeholder_mismatch;
              description := "Missing placeholder(s): %s" |};
           {| type := placeholder_mismatch;
              description := "Missing placeholder(s): %s" |};
           {| type := linguistic_review;
              description := "Not a translation of the original" |} ];
       suggestedFix := Some "Laipni ludzam macibu cela %s."%string |};
    {| msgid := "You have completed %d courses";
       msgstr := "Tu esi pabeidzis %d kursus";
       problems := [ {| type := linguistic_review;
                        description := "Unnatural word order" |} ];
       suggestedFix := Some "Tu esi pabeidzis %d kursus!"%string |} ].


End Sample.

(** * Further notions, for the properties beyond the claims *)

(** The text ends with a percent sign. *)
Fixpoint ends_with_percent (s : string) : bool :=
  match s with
  | EmptyString => false
  | String c EmptyString => Ascii.eqb c "%"
  | String _ s' => ends_with_percent s'
  end.

(** The text starts with one of the letters [s], [d], [f], [g]. *)
Definition starts_with_conversion (s : string) : bool :=
  match s with
  | String c _ => is_conversion c
  | EmptyString => false
  end.

(** The issue the technical pass pushes for a kept entry, if any. *)
Definition technical_issue (translation : Translation.t)
  : option TranslationIssue :=
  let technicalProblems :=
    checkPlaceholderConsistency (Translation.msgid translation)
                                (Translation.msgstr translation) in
  match technicalProblems with
  | [] => None
  | _ :: _ =>
    Some {| msgid := Translation.msgid translation;
            msgstr := Translation.msgstr translation;
            problems := technicalProblems;
            suggestedFix := Some generic_fix |}
  end.

(** The problems of an issue of the batch validator: those of the checker for
    its pair, then at most one linguistic finding, and at least one in all. *)
Definition batch_issue_shape (issue : TranslationIssue) : Prop :=
  exists linguistic,
    problems issue
    = checkPlaceholderConsistency (msgid issue) (msgstr issue) ++ linguistic
    /\ (linguistic = []
        \/ exists text,
             linguistic = [ {| type := linguistic_review; description := text |} ])
    /\ problems issue <> [].

(** An issue with at least one problem whose placeholder problems are those
    the checker finds for its pair. *)
Definition genuine_issue (issue : TranslationIssue) : Prop :=
  problems issue <> []
  /\ Forall (fun p => type p = placeholder_mismatch ->
                      p ∈ checkPlaceholderConsistency (msgid issue) (msgstr issue))
            (problems issue).

(** [`${i + 1}`]: the decimal numeral of a position. *)
Definition Number_toString (n : nat) : string :=
  NilEmpty.string_of_uint (Nat.to_uint n).

(** The text of one entry in the prompt:
    [`${i + 1}. Original: ${t.msgid}\nTranslation: ${t.msgstr}`]. *)
Definition render_translation (i : nat) (t : Translation.t) : string :=
  Number_toString (i + 1) +:+ ". Original: " +:+ Translation.msgid t
  +:+ newline +:+ "Translation: " +:+ Translation.msgstr t.

(** [translations.map((t, i) => ...).join('\n\n')] *)
Definition formattedTranslations (translations : list Translation.t) : string :=
  Js.join (newline +:+ newline) (imap render_translation translations).

(** The number a decimal numeral denotes, as the model's answer gives it back
    in [index]. *)
Definition numeral_value (s : string) : option Z :=
  (fun d => Z.of_nat (Nat.of_uint d)) <$> NilEmpty.uint_of_string s.

(** A setting of a built model handle, given what the configuration holds
    for it and the provider's default: the configured text where there is one
    that is not empty, the default otherwise. *)
Definition configured (setting : option string) (fallback value : string)
  : Prop :=
  (forall s, setting = Some s -> s <> ""%string -> value = s)
  /\ (setting = None \/ setting = Some ""%string -> value = fallback).

(** What a built model handle holds, given the configuration: the provider it
    was built for, the configured key, and the configured or default model
    name and base URL. *)
Definition handle_agrees (config : ValidatorConfig) (m : ChatModel) : Prop :=
  match m with
  | ChatOllama url name =>
    provider config = "ollama"%string
    /\ configured (baseUrl config) "http://localhost:11434" url
    /\ configured (modelName config) "llama2" name
  | ChatAnthropic key name =>
    provider config = "anthropic"%string
    /\ apiKey config = Some key /\ key <> ""%string
    /\ configured (modelName config) "claude-3-sonnet-20240229" name
  | ChatOpenAI key name =>
    provider config = "openai"%string
    /\ apiKey config = Some key /\ key <> ""%string
    /\ configured (modelName config) "gpt-3.5-turbo" name
  end.

(** The settings of a handle, whatever its provider. *)
Definition handle_settings (m : ChatModel) : list string :=
  match m with
  | ChatOllama url name => [url; name]
  | ChatAnthropic key name => [key; name]
  | ChatOpenAI key name => [key; name]
  end.

(** A file without a translated entry, and a model that never answers in
    JSON. *)
Module Quiet.

Definition items : list Item.t :=
  [ {| Item.msgid := "Goodbye, %s"; Item.msgstr := [""%string] |};
    {| Item.msgid := "See you %s"; Item.msgstr := [] |} ].

Definition untranslated : Runtime :=
  {| readFileSync := fun _ => inr "msgid"%string;
     po_parse := fun _ => inr items;
     generate := fun _ _ _ _ => inl (Error "connect ECONNREFUSED 127.0.0.1:11434");
     trim := fun s => Sample.trim_end (Sample.trim_start s);
     JSON_parse := fun _ => inl (Error "Unexpected token in JSON");
     TypeError_not_iterable := Error "result.translations is not iterable";
     TypeError_join :=
       Error "Cannot read properties of undefined (reading 'join')";
     SyntaxError_JSON := Error "Unexpected token in JSON" |}.

(** The sample file, with a model that answers in prose. *)
Definition chatty : Runtime :=
  Sample.runtime
    (fun _ => inr "Sure! Here is my review of the translations."%string).

End Quiet.

(** An answer whose first entry reports issues without the [issues] field,
    and whose second entry is a complete finding about the first pair of the
    batch. *)
Module Unfinished.

Definition answer : string :=
  Sample.quoted ("{'translations':[{'index':2,'has_issues':true,"
                 +:+ "'suggested_fix':'Sveiki, pasaule!'},"
                 +:+ "{'index':1,'has_issues':true,"
                 +:+ "'issues':['Not a translation of the original'],"
                 +:+ "'suggested_fix':'Laipni ludzam macibu cela %s.'}]}").

Definition incomplete : Validation :=
  {| index := Some 2%Z; has_issues := Some true;
     issues := None;
     suggested_fix := Some "Sveiki, pasaule!"%string |}.

Definition complete : Validation :=
  {| index := Some 1%Z; has_issues := Some true;
     issues := Some ["Not a translation of the original"%string];
     suggested_fix := Some "Laipni ludzam macibu cela %s."%string |}.

Definition result : ModelResult.t :=
  {| ModelResult.translations := Some [Some incomplete; Some complete] |}.

Definition runtime : Runtime :=
  {| readFileSync := @readFileSync Sample.answered;
     po_parse := @po_parse Sample.answered;
     generate := fun _ _ _ _ => inr answer;
     trim := fun s => Sample.trim_end (Sample.trim_start s);
     JSON_parse := fun text =>
       if String.eqb text answer then inr result
       else inl (Error "Unexpected token in JSON");
     TypeError_not_iterable := Error "result.translations is not iterable";
     TypeError_join :=
       Error "Cannot read properties of undefined (reading 'join')";
     SyntaxError_JSON := Error "Unexpected token in JSON" |}.

End Unfinished.

(** * Properties of the placeholder extractor *)

Section Extraction.

Lemma append_cons c s t : String c s +:+ t = String c (s +:+ t).
Proof. reflexivity. Qed.

Lemma append_nil t : ""%string +:+ t = t.
Proof. reflexivity. Qed.

Lemma append_assoc (a b c : string) : (a +:+ b) +:+ c = a +:+ (b +:+ c).
Proof. induction a as [|x a IH]; [reflexivity|]. rewrite !append_cons, IH. reflexivity. Qed.

Lemma string_ind2 (P : string -> Prop) :
  P ""%string ->
  (forall c, P (String c "")) ->
  (forall c c' r, P r -> P (String c' r) -> P (String c (String c' r))) ->
  forall s, P s.
Proof.
  intros H0 H1 H2 s.
  enough (P s /\ forall c, P (String c s)) by tauto.
  induction s as [|a s [IHs IHc]]; split; auto.
Qed.

Lemma substring_two c c' r :
  substring 0 2 (String c (String c' r)) = String c (String c' "").
Proof. simpl. destruct r; reflexivity. Qed.

Lemma token_iff (t : string) :
  t ∈ tokens <->
  exists c', t = String "%" (String c' "") /\ is_conversion c' = true.
Proof.
  unfold tokens. rewrite !elem_of_cons, elem_of_nil. split.
  - intros [->|[->|[->|[->|[]]]]]; eexists; split; reflexivity.
  - intros (c' & -> & Hc). unfold is_conversion in Hc.
    rewrite !orb_true_iff, !Ascii.eqb_eq in Hc.
    destruct Hc as [[[->| ->]| ->]| ->]; auto.
Qed.

(** A token at the head of the text, in the words of the scanner. *)
Lemma token_at_head c c' r :
  token_at (String c (String c' r)) 0 = Ascii.eqb c "%" && is_conversion c'.
Proof.
  unfold token_at. rewrite substring_two.
  destruct (Ascii.eqb_spec c "%") as [->|Hc]; simpl.
  - destruct (is_conversion c') eqn:E.
    + apply bool_decide_eq_true. apply token_iff. eauto.
    + apply bool_decide_eq_false. rewrite token_iff.
      intros (x & [= <-] & Hx). congruence.
  - apply bool_decide_eq_false. rewrite token_iff.
    intros (x & [= -> _] & _). congruence.
Qed.

Lemma token_at_short c i : token_at (String c "") i = false.
Proof.
  unfold token_at. apply bool_decide_eq_false. rewrite token_iff.
  intros (x & Hx & _). destruct i as [|[|i]]; simpl in Hx; discriminate.
Qed.

Lemma token_at_tail c tl i : token_at (String c tl) (S i) = token_at tl i.
Proof. reflexivity. Qed.

Lemma conversion_not_percent c : is_conversion c = true -> Ascii.eqb c "%" = false.
Proof.
  unfold is_conversion. rewrite !orb_true_iff, !Ascii.eqb_eq.
  intros [[[->| ->]| ->]| ->]; reflexivity.
Qed.

Lemma match_positions_step pos c c' r :
  match_positions pos (String c (String c' r))
  = if Ascii.eqb c "%" && is_conversion c'
    then pos :: match_positions (S (S pos)) r
    else match_positions (S pos) (String c' r).
Proof. reflexivity. Qed.

Lemma extract_step c c' r :
  extractPlaceholders (String c (String c' r))
  = if Ascii.eqb c "%" && is_conversion c'
    then String c (String c' "") :: extractPlaceholders r
    else extractPlaceholders (String c' r).
Proof. reflexivity. Qed.

Lemma match_positions_shift s : forall pos,
  match_positions pos s = Nat.add pos <$> match_positions 0 s.
Proof.
  induction s as [| c | c c' r IHr IHt] using string_ind2; intros pos; try reflexivity.
  rewrite !match_positions_step.
  destruct (Ascii.eqb c "%" && is_conversion c').
  - rewrite (IHr (S (S pos))), (IHr 2). cbn [fmap list_fmap].
    rewrite Nat.add_0_r. f_equal. rewrite <- list_fmap_compose.
    apply list_fmap_ext. intros _ x _. simpl. lia.
  - rewrite (IHt (S pos)), (IHt 1). rewrite <- list_fmap_compose.
    apply list_fmap_ext. intros _ x _. simpl. lia.
Qed.

Lemma extract_positions s :
  extractPlaceholders s = (fun p => substring p 2 s) <$> match_positions 0 s.
Proof.
  induction s as [| c | c c' r IHr IHt] using string_ind2; try reflexivity.
  rewrite extract_step, match_positions_step.
  destruct (Ascii.eqb c "%" && is_conversion c').
  - rewrite (match_positions_shift r 2). cbn [fmap list_fmap].
    rewrite substring_two. f_equal. rewrite <- list_fmap_compose.
    rewrite IHr. apply list_fmap_ext. intros _ x _. reflexivity.
  - rewrite (match_positions_shift _ 1), <- list_fmap_compose, IHt.
    apply list_fmap_ext. intros _ x _. reflexivity.
Qed.

Lemma filter_seq_tail c tl n k :
  List.filter (token_at (String c tl)) (seq (S k) n)
  = S <$> List.filter (token_at tl) (seq k n).
Proof.
  rewrite <- fmap_S_seq. unfold fmap, list_fmap at 1.
  change (List.filter (token_at (String c tl)) (map S (seq k n))
          = map S (List.filter (token_at tl) (seq k n))).
  rewrite filter_map_swap. reflexivity.
Qed.

Lemma filter_seq_head c tl :
  List.filter (token_at (String c tl)) (seq 0 (String.length (String c tl)))
  = (if token_at (String c tl) 0 then [0] else [])
    ++ (S <$> List.filter (token_at tl) (seq 0 (String.length tl))).
Proof.
  change (String.length (String c tl)) with (S (String.length tl)).
  change (seq 0 (S (String.length tl))) with (0 :: seq 1 (String.length tl)).
  cbn [List.filter]. rewrite filter_seq_tail.
  destruct (token_at (String c tl) 0); reflexivity.
Qed.

Lemma positions_all s :
  match_positions 0 s = List.filter (token_at s) (seq 0 (String.length s)).
Proof.
  induction s as [| c | c c' r IHr IHt] using string_ind2; try reflexivity.
  - cbn. rewrite token_at_short. reflexivity.
  - rewrite match_positions_step, filter_seq_head, token_at_head.
    destruct (Ascii.eqb c "%" && is_conversion c') eqn:E.
    + apply andb_true_iff in E as [_ E]. apply conversion_not_percent in E.
      rewrite filter_seq_head.
      assert (token_at (String c' r) 0 = false) as ->.
      { destruct r; [apply token_at_short|].
        rewrite token_at_head, E. reflexivity. }
      rewrite <- IHr, (match_positions_shift r 2).
      cbn [app]. rewrite <- list_fmap_compose. reflexivity.
    + rewrite <- IHt. apply match_positions_shift.
Qed.

Lemma extract_occurrences s : extractPlaceholders s = occurrences s.
Proof. unfold occurrences. rewrite <- positions_all. apply extract_positions. Qed.

Lemma extract_tokens s : Forall (fun p => p ∈ tokens) (extractPlaceholders s).
Proof.
  induction s as [| c | c c' r IHr IHt] using string_ind2; try constructor.
  - rewrite extract_step.
    destruct (Ascii.eqb c "%" && is_conversion c') eqn:E; [|assumption].
    constructor; [|assumption].
    apply andb_true_iff in E as [Hc E]. apply Ascii.eqb_eq in Hc as ->.
    apply token_iff. eauto.
Qed.

Lemma extract_skip c r :
  Ascii.eqb c "%" = false -> extractPlaceholders (String c r) = extractPlaceholders r.
Proof. intros Hc. destruct r; [reflexivity|]. simpl. rewrite Hc. reflexivity. Qed.

Lemma extract_token_cons c c' r :
  Ascii.eqb c "%" && is_conversion c' = true ->
  extractPlaceholders (String c (String c' r))
  = String c (String c' "") :: extractPlaceholders r.
Proof. intros E. simpl. rewrite E. reflexivity. Qed.

(** Appending a text whose first character cannot complete a token. *)
Lemma extract_app a : forall b,
  match b with
  | String c _ => is_conversion c = false
  | EmptyString => True
  end ->
  extractPlaceholders (a +:+ b) = extractPlaceholders a ++ extractPlaceholders b.
Proof.
  induction a as [| c | c c' r IHr IHt] using string_ind2; intros b Hb.
  - reflexivity.
  - destruct b as [|d b]; [reflexivity|].
    rewrite append_cons, append_nil, extract_step, Hb, andb_false_r. reflexivity.
  - rewrite !append_cons, !extract_step.
    destruct (Ascii.eqb c "%" && is_conversion c').
    + rewrite (IHr b Hb). reflexivity.
    + rewrite <- append_cons. apply (IHt b Hb).
Qed.

Lemma is_modifier_plain c :
  is_modifier c = true -> Ascii.eqb c "%" = false /\ is_conversion c = false.
Proof.
  destruct c as [[] [] [] [] [] [] [] []]; vm_compute; intros; try discriminate; auto.
Qed.

Lemma extract_modifiers mods : forall r,
  all_modifiers mods = true ->
  extractPlaceholders (mods +:+ r) = extractPlaceholders r
  \/ (mods = ""%string).
Proof.
  induction mods as [|m mods IH]; intros r Hm; [right; reflexivity|left].
  simpl in Hm. apply andb_true_iff in Hm as [Hm Hms].
  apply is_modifier_plain in Hm as [Hp _].
  rewrite append_cons, (extract_skip _ _ Hp).
  destruct (IH r Hms) as [->| ->]; reflexivity.
Qed.

Lemma filter_none {A} (f : A -> bool) (l : list A) :
  (forall x, f x = false) -> List.filter f l = [].
Proof.
  intros Hf. induction l as [|x l IH]; [reflexivity|].
  simpl. rewrite Hf. exact IH.
Qed.

Lemma positions_sorted s : forall pos,
  Forall (fun p => pos <= p) (match_positions pos s)
  /\ StronglySorted lt (match_positions pos s).
Proof.
  induction s as [| c | c c' r IHr IHt] using string_ind2; intros pos;
    try (split; constructor).
  rewrite match_positions_step.
  destruct (Ascii.eqb c "%" && is_conversion c').
  - destruct (IHr (S (S pos))) as [Hle Hs]. split.
    + constructor; [lia|]. eapply Forall_impl; [exact Hle|]. simpl. lia.
    + constructor; [exact Hs|]. eapply Forall_impl; [exact Hle|]. simpl. lia.
  - destruct (IHt (S pos)) as [Hle Hs]. split; [|exact Hs].
    eapply Forall_impl; [exact Hle|]. simpl. lia.
Qed.

Lemma extract_concat l :
  Forall (fun p => p ∈ tokens) l ->
  extractPlaceholders (concat_strings l) = l.
Proof.
  induction 1 as [|t l Ht _ IH]; [reflexivity|].
  apply token_iff in Ht as (c' & -> & Hc).
  cbn [concat_strings foldr]. rewrite !append_cons, append_nil.
  rewrite extract_token_cons by (rewrite Hc; reflexivity).
  f_equal. exact IH.
Qed.

(** C7.  The extractor returns, from left to right, every occurrence of one
    of the two-character tokens [%s], [%d], [%f], [%g] and nothing else.  It
    is a total function and its result is empty when no token occurs.  A
    conversion carrying width, precision, flag or positional characters
    between the percent sign and the letter, such as [%1$s], contributes
    nothing to the result: it is extracted neither whole nor as the bare
    token. *)
Theorem extractPlaceholders_tokens_only (text : string) :
  extractPlaceholders text = occurrences text
  /\ Forall (fun p => p ∈ tokens) (extractPlaceholders text)
  /\ ((forall i, token_at text i = false) -> extractPlaceholders text = [])
  /\ (forall pre mods c post,
        mods <> ""%string -> all_modifiers mods = true ->
        is_conversion c = true ->
        text = pre +:+ "%" +:+ mods +:+ String c post ->
        extractPlaceholders text
        = extractPlaceholders pre ++ extractPlaceholders post
        /\ "%" +:+ mods +:+ String c "" ∉ extractPlaceholders text).
Proof.
  split; [apply extract_occurrences|].
  split; [apply extract_tokens|].
  split.
  - intros Hno. rewrite extract_occurrences. unfold occurrences.
    rewrite (filter_none _ _ Hno). reflexivity.
  - intros pre mods c post Hne Hmods Hc ->. split.
    + rewrite extract_app by reflexivity. f_equal.
      destruct mods as [|m mods]; [congruence|].
      pose proof Hmods as Hm. cbn [all_modifiers] in Hm.
      apply andb_true_iff in Hm as [Hm _].
      apply is_modifier_plain in Hm as [_ Hm].
      rewrite !append_cons, append_nil, extract_step, Hm, andb_false_r.
      rewrite <- append_cons.
      destruct (extract_modifiers (String m mods) (String c post) Hmods)
        as [->|?]; [|congruence].
      apply extract_skip, conversion_not_percent, Hc.
    + intros Hin.
      pose proof (extract_tokens (pre +:+ "%" +:+ mods +:+ String c post)) as Ht.
      rewrite Forall_forall in Ht. apply Ht, token_iff in Hin as (x & Hx & _).
      destruct mods as [|m [|m' mods]]; [congruence|discriminate..].
Qed.

Lemma extractPlaceholders_tokens_only_witness :
  extractPlaceholders "Hello" = []
  /\ extractPlaceholders "File %1$s of %d" = extractPlaceholders " of %d".
Proof.
  split.
  - apply (extractPlaceholders_tokens_only "Hello").
    intros [|[|[|[|[|[|i]]]]]]; reflexivity.
  - apply (proj2 (proj2 (proj2 (extractPlaceholders_tokens_only "File %1$s of %d")))
             "File "%string "1$"%string "s"%char " of %d"%string);
      [discriminate | reflexivity | reflexivity | reflexivity].
Defined.

(** C8.  Extraction is idempotent: extracting from the concatenation of the
    extracted tokens returns the same list.  It preserves order: the tokens
    are read at strictly increasing positions of the text, each of which
    holds a token. *)
Theorem extractPlaceholders_idempotent_ordered (s : string) :
  extractPlaceholders (concat_strings (extractPlaceholders s))
  = extractPlaceholders s
  /\ extractPlaceholders s = (fun p => substring p 2 s) <$> match_positions 0 s
  /\ StronglySorted lt (match_positions 0 s)
  /\ Forall (fun p => token_at s p = true) (match_positions 0 s).
Proof.
  split; [apply extract_concat, extract_tokens|].
  split; [apply extract_positions|].
  split; [apply positions_sorted|].
  rewrite positions_all. apply Forall_forall. intros p Hp.
  apply list_elem_of_In, filter_In in Hp. tauto.
Qed.

End Extraction.

(** * JSON texts *)

Section Json.

Lemma unescape_escape_char c t :
  Js.unescape (Js.escape_char c +:+ t) = Js.push_char c (Js.unescape t).
Proof. destruct c as [[] [] [] [] [] [] [] []]; reflexivity. Qed.

Lemma unescape_escape s rest :
  Js.unescape (Js.escape s +:+ String Js.dquote rest) = Some (s, rest).
Proof.
  induction s as [|c s IH]; [reflexivity|].
  cbn [Js.escape]. rewrite append_assoc, unescape_escape_char, IH. reflexivity.
Qed.

Lemma JSON_unquote_quote s rest :
  Js.JSON_unquote (Js.JSON_quote s +:+ rest) = Some (s, rest).
Proof.
  unfold Js.JSON_quote. rewrite append_cons, append_assoc, append_cons, append_nil.
  apply unescape_escape.
Qed.

Lemma JSON_quote_inj a b r1 r2 :
  Js.JSON_quote a +:+ r1 = Js.JSON_quote b +:+ r2 -> a = b /\ r1 = r2.
Proof.
  intros E. apply (f_equal Js.JSON_unquote) in E.
  rewrite !JSON_unquote_quote in E. by injection E.
Qed.

Lemma join_cons sep x y l :
  Js.join sep (x :: y :: l) = x +:+ sep +:+ Js.join sep (y :: l).
Proof. reflexivity. Qed.

Lemma append_nil_r (s : string) : s +:+ "" = s.
Proof. induction s as [|c s IH]; [reflexivity|]. by rewrite append_cons, IH. Qed.

(** The elements of the array text, with the closing bracket. *)
Lemma array_body_inj l1 : forall l2,
  Js.join "," (Js.JSON_quote <$> l1) +:+ "]"
  = Js.join "," (Js.JSON_quote <$> l2) +:+ "]" -> l1 = l2.
Proof.
  induction l1 as [|x [|x' l1] IH]; intros [|y [|y' l2]]; cbn [fmap list_fmap];
    rewrite ?join_cons, ?append_assoc; cbn [Js.join]; intros E;
    try reflexivity; try discriminate E;
    try (apply JSON_quote_inj in E as [-> E]; try discriminate E).
  - reflexivity.
  - f_equal. apply IH. cbn [fmap list_fmap].
    rewrite !append_cons, !append_nil in E. by injection E.
Qed.

Lemma JSON_stringify_strings_inj l1 l2 :
  Js.JSON_stringify_strings l1 = Js.JSON_stringify_strings l2 -> l1 = l2.
Proof.
  unfold Js.JSON_stringify_strings. rewrite !append_cons, !append_nil.
  intros [= E]. by apply array_body_inj.
Qed.

End Json.

(** * Properties of the technical checker *)

Section Checker.

Lemma sort_insert_perm x l : Js.sort_insert x l ≡ₚ x :: l.
Proof.
  induction l as [|y l IH]; [reflexivity|].
  simpl. destruct (String.leb x y); [reflexivity|].
  rewrite IH. apply perm_swap.
Qed.

Lemma sort_perm l : Js.sort l ≡ₚ l.
Proof.
  induction l as [|x l IH]; [reflexivity|].
  simpl. rewrite sort_insert_perm. by constructor.
Qed.

Lemma sort_insert_HdRel a x l :
  code_unit_le a x -> HdRel code_unit_le a l ->
  HdRel code_unit_le a (Js.sort_insert x l).
Proof.
  intros Hax Hal. destruct l as [|y l]; simpl; [by constructor|].
  destruct (String.leb x y); constructor; [exact Hax|].
  by inversion Hal.
Qed.

Lemma sort_insert_sorted x l :
  Sorted code_unit_le l -> Sorted code_unit_le (Js.sort_insert x l).
Proof.
  induction 1 as [|y l Hl IH Hy]; simpl; [by repeat constructor|].
  destruct (String.leb x y) eqn:Hxy.
  - constructor; [by constructor|]. by constructor.
  - constructor; [exact IH|]. apply sort_insert_HdRel; [|exact Hy].
    destruct (String.leb_total x y) as [E|E]; [congruence|exact E].
Qed.

(** The model of the sort does sort: its result is ordered by code units and
    is a rearrangement of its argument. *)
Lemma sort_sorted l : Sorted code_unit_le (Js.sort l).
Proof.
  induction l as [|x l IH]; [constructor|]. simpl. by apply sort_insert_sorted.
Qed.

Lemma filter_perm {A} (f : A -> bool) (l1 l2 : list A) :
  l1 ≡ₚ l2 -> List.filter f l1 ≡ₚ List.filter f l2.
Proof.
  induction 1 as [|x l1 l2 _ IH|x y l|l1 l2 l3 _ IH1 _ IH2]; simpl.
  - reflexivity.
  - destruct (f x); [by constructor|assumption].
  - destruct (f x), (f y); try reflexivity. apply perm_swap.
  - by etransitivity.
Qed.

Lemma forallb_filter_none {A} (f : A -> bool) (l : list A) :
  (forall x, In x l -> f x = false) -> List.filter f l = [].
Proof.
  induction l as [|x l IH]; intros Hf; [reflexivity|].
  simpl. rewrite (Hf x) by by left. apply IH. intros y Hy. apply Hf. by right.
Qed.

Lemma array_includes_sort l p :
  Js.array_includes (Js.sort l) p = bool_decide (p ∈ l).
Proof.
  unfold Js.array_includes. apply bool_decide_ext. by rewrite sort_perm.
Qed.

Lemma check_unfold msgid msgstr :
  checkPlaceholderConsistency msgid msgstr
  = if bool_decide (Js.sort (extractPlaceholders msgid)
                    = Js.sort (extractPlaceholders msgstr))
    then []
    else [ {| type := placeholder_mismatch;
              description :=
                missing_prefix +:+ Js.join ", " (listed_missing msgid msgstr) |} ].
Proof.
  unfold checkPlaceholderConsistency, listed_missing.
  destruct (String.eqb_spec
    (Js.JSON_stringify_strings (Js.sort (extractPlaceholders msgid)))
    (Js.JSON_stringify_strings (Js.sort (extractPlaceholders msgstr)))) as [E|E].
  - apply JSON_stringify_strings_inj in E. by rewrite bool_decide_eq_true_2.
  - rewrite bool_decide_eq_false_2; [reflexivity|]. intros E'. apply E. by rewrite E'.
Qed.

(** C1.  The checker returns no problem exactly when the sorted placeholder
    arrays of the original and of the translation are equal.  When they
    differ it returns exactly one [placeholder_mismatch] problem; the
    placeholders its description lists are, up to order, those of the
    original's extracted list that are not members of the translation's
    extracted list. *)
Theorem checkPlaceholderConsistency_sorted_equal (msgid msgstr : string) :
  let original := extractPlaceholders msgid in
  let translated := extractPlaceholders msgstr in
  (checkPlaceholderConsistency msgid msgstr = []
   <-> Js.sort original = Js.sort translated)
  /\ (Js.sort original <> Js.sort translated ->
      exists listed,
        checkPlaceholderConsistency msgid msgstr
        = [ {| type := placeholder_mismatch;
               description := missing_prefix +:+ Js.join ", " listed |} ]
        /\ listed ≡ₚ List.filter (fun p => negb (bool_decide (p ∈ translated)))
                                 original)
  /\ (Js.sort original <> Js.sort translated ->
      (forall p, p ∈ original -> p ∈ translated) ->
      checkPlaceholderConsistency msgid msgstr
      = [ {| type := placeholder_mismatch; description := missing_prefix |} ]).
Proof.
  intros original translated.
  assert (listed_missing msgid msgstr
          ≡ₚ List.filter (fun p => negb (bool_decide (p ∈ translated))) original)
    as Hlisted.
  { unfold listed_missing.
    erewrite filter_ext; [apply filter_perm, sort_perm|].
    intros p. cbv beta. by rewrite array_includes_sort. }
  rewrite check_unfold. split; [|split].
  - case_bool_decide; [tauto|]. split; [discriminate|tauto].
  - intros Hne. rewrite bool_decide_eq_false_2 by exact Hne.
    by exists (listed_missing msgid msgstr).
  - intros Hne Hall. rewrite bool_decide_eq_false_2 by exact Hne.
    rewrite forallb_filter_none in Hlisted.
    + apply Permutation_nil_r in Hlisted. rewrite Hlisted.
      cbn [Js.join]. by rewrite append_nil_r.
    + intros p Hp. apply negb_false_iff, bool_decide_eq_true, Hall.
      by apply list_elem_of_In.
Qed.

Lemma checkPlaceholderConsistency_sorted_equal_witness :
  exists listed,
    checkPlaceholderConsistency "You have %d courses" "Tu esi pabeidzis kursus"
    = [ {| type := placeholder_mismatch;
           description := missing_prefix +:+ Js.join ", " listed |} ]
    /\ listed ≡ₚ ["%d"%string].
Proof.
  apply (proj1 (proj2 (checkPlaceholderConsistency_sorted_equal
                         "You have %d courses" "Tu esi pabeidzis kursus"))).
  discriminate.
Defined.

End Checker.

(** * Deduplication of problems *)

Section Dedup.

Lemma Set_add_all_first_seen keys : forall seen,
  Js.Set_add_all seen keys
  = seen ++ filter (fun k => k ∉ seen) (first_seen keys).
Proof.
  induction keys as [|k keys IH]; intros seen.
  - simpl. by rewrite app_nil_r.
  - cbn [Js.Set_add_all first_seen]. unfold Js.array_includes.
    case_bool_decide as Hk.
    + rewrite IH, filter_cons_False by tauto. f_equal.
      rewrite list_filter_filter. apply list_filter_iff.
      intros x. split; [|tauto]. intros Hx. split; [exact Hx|]. by intros ->.
    + rewrite IH, filter_cons_True by exact Hk.
      rewrite <- app_assoc. f_equal. cbn [app]. f_equal.
      rewrite list_filter_filter. apply list_filter_iff.
      intros x. rewrite elem_of_app, list_elem_of_singleton. tauto.
Qed.

Lemma filter_everything {A} (P : A -> Prop) `{forall x, Decision (P x)} (l : list A) :
  (forall x, P x) -> filter P l = l.
Proof.
  intros HP. induction l as [|x l IH]; [reflexivity|].
  rewrite filter_cons_True by apply HP. by rewrite IH.
Qed.

Lemma Set_from_first_seen keys : Js.Set_from keys = first_seen keys.
Proof.
  unfold Js.Set_from. rewrite Set_add_all_first_seen. cbn [app].
  apply filter_everything. intros x. apply not_elem_of_nil.
Qed.

Lemma filter_ne_fmap {A B} `{EqDecision A, EqDecision B} (f : A -> B)
    (x : A) (l : list A) :
  Inj (=) (=) f ->
  filter (fun y => y ≠ f x) (f <$> l) = f <$> filter (fun y => y ≠ x) l.
Proof.
  intros Hf. induction l as [|z l IH]; [reflexivity|].
  rewrite fmap_cons. destruct (decide (z = x)) as [->|Hz].
  - rewrite !filter_cons_False by tauto. exact IH.
  - rewrite !filter_cons_True; [|exact Hz|by intros E; apply Hz, Hf].
    by rewrite fmap_cons, IH.
Qed.

Lemma first_seen_fmap {A B} `{EqDecision A, EqDecision B} (f : A -> B) (l : list A) :
  Inj (=) (=) f -> first_seen (f <$> l) = f <$> first_seen l.
Proof.
  intros Hf. induction l as [|x l IH]; [reflexivity|].
  rewrite fmap_cons. cbn [first_seen]. rewrite fmap_cons. f_equal.
  by rewrite IH, filter_ne_fmap.
Qed.

Lemma first_seen_subseteq {A} `{EqDecision A} (l : list A) x :
  x ∈ first_seen l -> x ∈ l.
Proof.
  revert x. induction l as [|y l IH]; intros x; [done|].
  cbn [first_seen]. rewrite !elem_of_cons, list_elem_of_filter.
  intros [->|[_ Hx]]; auto.
Qed.

Lemma first_seen_NoDup {A} `{EqDecision A} (l : list A) : NoDup (first_seen l).
Proof.
  induction l as [|y l IH]; [constructor|].
  cbn [first_seen]. constructor.
  - rewrite list_elem_of_filter. tauto.
  - by apply NoDup_filter.
Qed.

Lemma first_seen_elem_of {A} `{EqDecision A} (l : list A) x :
  x ∈ l -> x ∈ first_seen l.
Proof.
  induction l as [|y l IH]; [done|].
  cbn [first_seen]. rewrite !elem_of_cons, list_elem_of_filter.
  destruct (decide (x = y)) as [->|Hxy]; [auto|].
  intros [->|Hx]; [done|auto].
Qed.

Lemma first_seen_sublist {A} `{EqDecision A} (l : list A) :
  first_seen l `sublist_of` l.
Proof.
  induction l as [|x l IH]; [constructor|].
  cbn [first_seen]. apply sublist_skip.
  etransitivity; [apply sublist_filter|exact IH].
Qed.

(** [first_seen] removes repetitions and nothing else, and keeps the order. *)
Lemma first_seen_spec {A} `{EqDecision A} (l : list A) :
  NoDup (first_seen l)
  /\ (forall x, x ∈ first_seen l <-> x ∈ l)
  /\ first_seen l `sublist_of` l.
Proof.
  split; [apply first_seen_NoDup|]. split; [|apply first_seen_sublist].
  intros x. split; [apply first_seen_subseteq|apply first_seen_elem_of].
Qed.

Lemma type_of_name_name t : type_of_name (type_name t) = Some t.
Proof. by destruct t. Qed.

Lemma parse_stringify_problem p :
  JSON_parse_problem (JSON_stringify_problem p) = Some p.
Proof.
  unfold JSON_parse_problem, JSON_stringify_problem.
  rewrite append_cons, append_nil. cbn [Js.expect Ascii.eqb Bool.eqb mbind option_bind].
  rewrite JSON_unquote_quote. cbn [mbind option_bind].
  rewrite append_cons, append_nil. cbn [Js.expect Ascii.eqb Bool.eqb mbind option_bind].
  rewrite JSON_unquote_quote. cbn [mbind option_bind].
  rewrite append_cons, append_nil. cbn [Js.expect Ascii.eqb Bool.eqb mbind option_bind].
  rewrite JSON_unquote_quote. cbn [mbind option_bind].
  rewrite append_cons, append_nil. cbn [Js.expect Ascii.eqb Bool.eqb mbind option_bind].
  rewrite JSON_unquote_quote. cbn [mbind option_bind].
  cbn [Js.expect Ascii.eqb Bool.eqb mbind option_bind].
  rewrite type_of_name_name. cbn [mbind option_bind].
  by destruct p.
Qed.

Global Instance JSON_stringify_problem_inj : Inj (=) (=) JSON_stringify_problem.
Proof.
  intros p1 p2 E. apply (f_equal JSON_parse_problem) in E.
  rewrite !parse_stringify_problem in E. by injection E.
Qed.

Lemma dedup_problems_first_seen ps : dedup_problems ps = Some (first_seen ps).
Proof.
  unfold dedup_problems.
  rewrite Set_from_first_seen, (first_seen_fmap _ _ _).
  apply mapM_fmap_Some, parse_stringify_problem.
Qed.

Lemma filter_ne_absent {A} `{EqDecision A} (x : A) (l : list A) :
  x ∉ l -> filter (fun y => y ≠ x) l = l.
Proof.
  induction l as [|y l IH]; [reflexivity|].
  intros [Hxy Hx]%not_elem_of_cons.
  rewrite filter_cons_True by congruence. by rewrite IH.
Qed.

Lemma first_seen_id {A} `{EqDecision A} (l : list A) :
  NoDup l -> first_seen l = l.
Proof.
  induction 1 as [|x l Hx _ IH]; [reflexivity|].
  cbn [first_seen]. by rewrite IH, filter_ne_absent.
Qed.

End Dedup.

(** * Properties of the batch validator *)

Section Batch.
Context `{Runtime}.

Lemma pushed_problems (ps : list ValidationProblem) :
  (if (0 <? length ps)%nat then [] ++ ps else []) = ps.
Proof. by destruct ps. Qed.

Lemma emit_spec validation translation ps :
  emit validation translation ps
  = inr (match ps with
         | [] => None
         | _ :: _ =>
                Some {| msgid := Translation.msgid translation;
                        msgstr := Translation.msgstr translation;
                        problems := first_seen ps;
                        suggestedFix := suggested_fix validation |}
         end).
Proof.
  unfold emit. rewrite dedup_problems_first_seen. by destruct ps.
Qed.

(** The guard of the linguistic finding, in words. *)
Lemma linguistic_condition_true validation translation :
  linguistic_condition validation translation = true
  <-> has_issues validation = Some true
      /\ exists suggestion,
           suggested_fix validation = Some suggestion
           /\ suggestion ≠ ""%string
           /\ suggestion ≠ Translation.msgstr translation.
Proof.
  unfold linguistic_condition, truthy.
  rewrite !andb_true_iff, negb_true_iff, bool_decide_eq_false.
  destruct (has_issues validation) as [[]|], (suggested_fix validation) as [s|];
    split; try (intros [[? ?] ?]; discriminate);
    try (intros [? (? & ? & ?)]; discriminate).
  - intros [[_ Hs] Hne]. split; [done|]. exists s. repeat split.
    + rewrite negb_true_iff in Hs. by apply String.eqb_neq.
    + congruence.
  - intros [_ (s' & [= <-] & Hs & Hne)]. repeat split.
    + rewrite negb_true_iff. by apply String.eqb_neq.
    + congruence.
Qed.

Lemma entry_problems_linguistic validation translation strings :
  linguistic_condition validation translation = true ->
  issues validation = Some strings ->
  entry_problems validation translation
  = checkPlaceholderConsistency (Translation.msgid translation)
                                (Translation.msgstr translation)
    ++ [ {| type := linguistic_review; description := Js.join newline strings |} ].
Proof.
  intros (Hh & s & Hs & Hne & Hd)%linguistic_condition_true Hi.
  unfold entry_problems. rewrite Hh, Hs, Hi, decide_True by done. reflexivity.
Qed.

Lemma entry_problems_plain validation translation :
  linguistic_condition validation translation = false ->
  entry_problems validation translation
  = checkPlaceholderConsistency (Translation.msgid translation)
                                (Translation.msgstr translation).
Proof.
  intros Hc. unfold entry_problems.
  destruct (has_issues validation) as [[]|] eqn:Hh; try apply app_nil_r.
  destruct (suggested_fix validation) as [s|] eqn:Hs; try apply app_nil_r.
  case_decide as Hd; [|apply app_nil_r].
  enough (linguistic_condition validation translation = true) by congruence.
  apply linguistic_condition_true. split; [done|]. by exists s.
Qed.

(** The problems of one entry are distinct already: at most one from the
    checker and at most one linguistic problem. *)
Remark entry_problems_NoDup validation translation :
  NoDup (entry_problems validation translation).
Proof.
  unfold entry_problems. rewrite check_unfold.
  set (tail := match has_issues validation, suggested_fix validation with
               | Some true, Some _ => _ | _, _ => _ end).
  assert (tail = [] \/ exists d, tail = [ {| type := linguistic_review;
                                             description := d |} ]) as Htail.
  { subst tail.
    destruct (has_issues validation) as [[]|], (suggested_fix validation) as [s|];
      try (by left). case_decide; [right; eauto|by left]. }
  case_bool_decide; destruct Htail as [->|[d ->]]; cbn [app].
  - constructor.
  - apply NoDup_singleton.
  - apply NoDup_singleton.
  - constructor; [|apply NoDup_singleton].
    rewrite list_elem_of_singleton. discriminate.
Qed.


(** Whenever the loop body ends normally it has done what is expected, and it
    throws only for want of [issues]. *)
Lemma validate_entry_returned batch entry r :
  validate_entry batch entry = inr r -> r = expected_issue batch entry.
Proof.
  destruct entry as [validation|]; [|by intros [= <-]].
  unfold validate_entry, expected_issue. cbn [mbind option_bind].
  destruct (lookup_translation batch (index validation)) as [translation|] eqn:Ht;
    [|by intros [= <-]].
  cbn [mbind option_bind]. rewrite pushed_problems.
  destruct (linguistic_condition validation translation) eqn:Hc.
  - destruct (issues validation) as [strings|] eqn:Hi; [|done].
    rewrite emit_spec, (entry_problems_linguistic _ _ strings Hc Hi).
    by intros [= <-].
  - rewrite emit_spec, (entry_problems_plain _ _ Hc). by intros [= <-].
Qed.

Lemma validate_entry_thrown batch entry error :
  validate_entry batch entry = inl error ->
  error = TypeError_join /\ lacks_issues batch entry.
Proof.
  destruct entry as [validation|]; [|done]. unfold validate_entry.
  destruct (lookup_translation batch (index validation)) as [translation|] eqn:Ht;
    [|done].
  rewrite pushed_problems.
  destruct (linguistic_condition validation translation) eqn:Hc.
  - destruct (issues validation) as [strings|] eqn:Hi.
    + by rewrite emit_spec.
    + intros [= <-]. split; [done|]. by exists validation, translation.
  - by rewrite emit_spec.
Qed.






End Batch.



(** * Properties of the merge *)

Section Merge.

Lemma merge_issue_found allIssues batchIssue i existing :
  list_find (same_entry batchIssue) allIssues = Some (i, existing) ->
  merge_issue allIssues batchIssue = <[i := merged existing batchIssue]> allIssues.
Proof.
  intros Hfind. unfold merge_issue, merged. rewrite Hfind. do 2 f_equal.
  destruct (decide (suggestedFix batchIssue = Some generic_fix)) as [E|E].
  - by rewrite bool_decide_eq_false_2 by tauto.
  - by rewrite bool_decide_eq_true_2.
Qed.

Lemma merge_issue_fresh allIssues batchIssue :
  list_find (same_entry batchIssue) allIssues = None ->
  merge_issue allIssues batchIssue = allIssues ++ [batchIssue].
Proof. intros Hfind. unfold merge_issue. by rewrite Hfind. Qed.

(** C3.  Merging one batch issue looks for the first accumulated issue with
    the same [msgid] and the same [msgstr].  If there is one, it is replaced
    in place by itself with the batch issue's problems appended, nothing
    removed, and with the batch issue's suggested fix unless that fix is the
    generic text of the technical pass.  If there is none, the batch issue is
    appended to the accumulated list.  The issues of a batch are merged one
    after the other, in their order, each into the list the issues before it
    have left: an empty batch leaves the accumulated list as it is, and the
    orchestrator goes on to the next batch with the list so merged. *)
Theorem merge_issue_by_exact_key `{Runtime}
    (allIssues : list TranslationIssue) (batchIssue : TranslationIssue) :
  (forall i existing,
      allIssues !! i = Some existing ->
      msgid existing = msgid batchIssue ->
      msgstr existing = msgstr batchIssue ->
      (forall j other, allIssues !! j = Some other -> j < i ->
                       ¬ (msgid other = msgid batchIssue
                          /\ msgstr other = msgstr batchIssue)) ->
      merge_issue allIssues batchIssue
      = <[i := {| msgid := msgid existing;
                  msgstr := msgstr existing;
                  problems := problems existing ++ problems batchIssue;
                  suggestedFix :=
                    if decide (suggestedFix batchIssue = Some generic_fix)
                    then suggestedFix existing
                    else suggestedFix batchIssue |}]> allIssues)
  /\ ((forall issue, issue ∈ allIssues ->
                     ¬ (msgid issue = msgid batchIssue
                        /\ msgstr issue = msgstr batchIssue)) ->
      merge_issue allIssues batchIssue = allIssues ++ [batchIssue])
  /\ merge_issues allIssues [] = allIssues
  /\ (forall batchIssues,
        merge_issues allIssues (batchIssue :: batchIssues)
        = merge_issues (merge_issue allIssues batchIssue) batchIssues)
  /\ (forall batchIssues,
        merge_issues allIssues (batchIssues ++ [batchIssue])
        = merge_issue (merge_issues allIssues batchIssues) batchIssue)
  /\ (forall this targetLanguage batch batches index batchIssues,
        validateBatch this index batch targetLanguage = inr batchIssues ->
        batch_pass this targetLanguage (batch :: batches) index allIssues
        = batch_pass this targetLanguage batches (S index)
                     (merge_issues allIssues batchIssues)).
Proof.
  split; [|split; [|split; [|split; [|split]]]].
  - intros i existing Hi Hid Hstr Hfirst.
    apply merge_issue_found, list_find_Some. by repeat split.
  - intros Hnone. apply merge_issue_fresh, list_find_None.
    apply Forall_forall. exact Hnone.
  - reflexivity.
  - reflexivity.
  - intros batchIssues. unfold merge_issues. by rewrite fold_left_app.
  - intros this targetLanguage batch batches index batchIssues Hbatch.
    cbn [batch_pass]. by rewrite Hbatch.
Qed.

Lemma merge_issue_by_exact_key_witness :
  merge_issue [Sample.technical1] Sample.batchIssue1
  = [ {| msgid := "Welcome to the learning path %s.";
         msgstr := "Macibu cela nosaukums";
         problems :=
           [ {| type := placeholder_mismatch;
                description := "Missing placeholder(s): %s" |};
             {| type := placeholder_mismatch;
                description := "Missing placeholder(s): %s" |};
             {| type := linguistic_review;
                description := "Not a translation of the original" |} ];
         suggestedFix := Some "Laipni ludzam macibu cela %s."%string |} ]
  /\ merge_issues [Sample.technical1] [] = [Sample.technical1]
  /\ @batch_pass Sample.answered Sample.validator "Latvian"
       [[Sample.entry1; Sample.entry2]; [Sample.entry3]] 0 [Sample.technical1]
     = @batch_pass Sample.answered Sample.validator "Latvian"
         [[Sample.entry3]] 1
         (merge_issues [Sample.technical1] [Sample.batchIssue1]).
Proof.
  split; [|split].
  - refine (proj1 (@merge_issue_by_exact_key Sample.answered
                     [Sample.technical1] Sample.batchIssue1)
                  0 Sample.technical1 _ _ _ _);
      [reflexivity | reflexivity | reflexivity | intros j other _ Hj; lia].
  - exact (proj1 (proj2 (proj2 (@merge_issue_by_exact_key Sample.answered
                                  [Sample.technical1] Sample.batchIssue1)))).
  - refine (proj2 (proj2 (proj2 (proj2 (proj2
              (@merge_issue_by_exact_key Sample.answered
                 [Sample.technical1] Sample.batchIssue1)))))
              Sample.validator "Latvian"%string
              [Sample.entry1; Sample.entry2] [[Sample.entry3]] 0
              [Sample.batchIssue1] _).
    reflexivity.
Defined.

Lemma entry_of_lookup (batch : list Translation.t) index translation :
  lookup_translation batch index = Some translation -> translation ∈ batch.
Proof.
  unfold lookup_translation. destruct index as [i|]; [|done].
  cbv zeta. destruct (i - 1 <? 0)%Z; [done|]. apply list_elem_of_lookup_2.
Qed.

Lemma check_produced msgid msgstr :
  Forall produced_kind (checkPlaceholderConsistency msgid msgstr).
Proof.
  rewrite check_unfold. case_bool_decide; repeat constructor.
Qed.

Lemma first_seen_Forall {A} `{EqDecision A} (P : A -> Prop) (l : list A) :
  Forall P l -> Forall P (first_seen l).
Proof.
  rewrite !Forall_forall. intros Hl x Hx. by apply Hl, first_seen_subseteq.
Qed.

Lemma sound_issue_mono kept kept' issue :
  kept ⊆ kept' -> sound_issue kept issue -> sound_issue kept' issue.
Proof. intros Hsub [Hin Hp]. split; [by apply Hsub|exact Hp]. Qed.

Lemma merged_sound kept existing batchIssue :
  sound_issue kept existing -> sound_issue kept batchIssue ->
  sound_issue kept (merged existing batchIssue).
Proof.
  intros [Hin Hp] [_ Hp']. split; [exact Hin|].
  cbn [merged problems]. by apply Forall_app.
Qed.

Lemma merge_issue_sound kept allIssues batchIssue :
  Forall (sound_issue kept) allIssues -> sound_issue kept batchIssue ->
  Forall (sound_issue kept) (merge_issue allIssues batchIssue).
Proof.
  intros Hall Hb.
  destruct (list_find (same_entry batchIssue) allIssues) as [[i existing]|] eqn:Hfind.
  - rewrite (merge_issue_found _ _ _ _ Hfind).
    apply list_find_Some in Hfind as (Hi & _ & _).
    apply Forall_insert; [exact Hall|]. apply merged_sound; [|exact Hb].
    rewrite Forall_forall in Hall. by eapply Hall, list_elem_of_lookup_2.
  - rewrite (merge_issue_fresh _ _ Hfind). apply Forall_app. split; [exact Hall|].
    by constructor.
Qed.

Lemma merge_issues_sound kept batchIssues : forall allIssues,
  Forall (sound_issue kept) allIssues -> Forall (sound_issue kept) batchIssues ->
  Forall (sound_issue kept) (merge_issues allIssues batchIssues).
Proof.
  induction batchIssues as [|b bs IH]; intros allIssues Hall Hbs; [exact Hall|].
  apply Forall_cons in Hbs as [Hb Hbs].
  apply IH; [by apply merge_issue_sound | exact Hbs].
Qed.

Lemma keeps_issues_refl l : keeps_issues l l.
Proof. intros i issue Hi. by exists issue. Qed.

Lemma keeps_issues_trans l1 l2 l3 :
  keeps_issues l1 l2 -> keeps_issues l2 l3 -> keeps_issues l1 l3.
Proof.
  intros H12 H23 i issue Hi.
  destruct (H12 i issue Hi) as (issue2 & Hi2 & Hid & Hstr & Hp).
  destruct (H23 i issue2 Hi2) as (issue3 & Hi3 & Hid' & Hstr' & Hp').
  exists issue3. repeat split; [done|congruence|congruence|by etransitivity].
Qed.

Lemma merge_issue_keeps allIssues batchIssue :
  keeps_issues allIssues (merge_issue allIssues batchIssue).
Proof.
  intros j issue Hj.
  destruct (list_find (same_entry batchIssue) allIssues) as [[i existing]|] eqn:Hfind.
  - rewrite (merge_issue_found _ _ _ _ Hfind).
    apply list_find_Some in Hfind as (Hi & _ & _).
    destruct (decide (i = j)) as [->|Hij].
    + rewrite list_lookup_insert_eq by by eapply lookup_lt_Some.
      assert (existing = issue) as -> by congruence.
      eexists. repeat split. cbn [merged problems]. by apply prefix_app_r.
    + rewrite list_lookup_insert_ne by done. by exists issue.
  - rewrite (merge_issue_fresh _ _ Hfind), lookup_app_l by by eapply lookup_lt_Some.
    by exists issue.
Qed.

Lemma merge_issues_keeps batchIssues : forall allIssues,
  keeps_issues allIssues (merge_issues allIssues batchIssues).
Proof.
  induction batchIssues as [|b bs IH]; intros allIssues; [apply keeps_issues_refl|].
  eapply keeps_issues_trans; [apply merge_issue_keeps|apply IH].
Qed.

End Merge.

(** * The partition into batches *)

Section Batches.

Lemma take_min_length {A} (n : nat) (l : list A) :
  take (Nat.min n (length l)) l = take n l.
Proof.
  destruct (Nat.le_ge_cases n (length l)) as [Hle|Hge].
  - by rewrite Nat.min_l.
  - rewrite Nat.min_r, !take_ge; done.
Qed.

Lemma lt_inject_Z (a b : Z) : Js.lt (inject_Z a) (inject_Z b) = (a <? b)%Z.
Proof.
  unfold Js.lt. destruct (Z.ltb_spec a b) as [Hlt|Hge].
  - apply negb_true_iff. destruct (Qle_bool _ _) eqn:E; [|done].
    apply Qle_bool_iff in E. rewrite <- Zle_Qle in E. lia.
  - apply negb_false_iff, Qle_bool_iff. by rewrite <- Zle_Qle.
Qed.

Lemma ToInteger_inject_Z (a : Z) : Js.ToIntegerOrInfinity (inject_Z a) = a.
Proof. unfold Js.ToIntegerOrInfinity. cbn. apply Z.quot_1_r. Qed.

(** Within the loop run with an integer size the two bounds of the slice are
    integers and not negative, and the slice is the next [batchSize]
    entries. *)
Lemma slice_chunk (kept : list Translation.t) (i batchSize : Z) :
  (0 <= i)%Z -> (1 <= batchSize)%Z ->
  Js.slice kept (inject_Z i) (inject_Z i + inject_Z batchSize)
  = take (Z.to_nat batchSize) (drop (Z.to_nat i) kept).
Proof.
  intros Hi Hb. unfold Js.slice, Js.slice_bound.
  rewrite <- inject_Z_plus, !ToInteger_inject_Z.
  destruct (Z.ltb_spec i 0) as [?|_]; [lia|].
  destruct (Z.ltb_spec (i + batchSize) 0) as [?|_]; [lia|].
  destruct (Nat.le_ge_cases (length kept) (Z.to_nat i)) as [Hge|Hlt].
  - rewrite !Nat.min_r by lia.
    rewrite Nat.sub_diag, (drop_ge _ (Z.to_nat i)) by lia. by rewrite take_nil.
  - rewrite (Nat.min_l (Z.to_nat i)) by exact Hlt.
    rewrite <- (take_min_length (Z.to_nat batchSize)), length_drop. f_equal. lia.
Qed.

Lemma batch_loop_positive (kept : list Translation.t) (batchSize : Z) :
  (1 <= batchSize)%Z ->
  forall fuel i batches,
    (0 <= i)%Z -> length kept - Z.to_nat i < fuel ->
    exists more,
      batch_loop fuel kept (inject_Z batchSize) (inject_Z i) batches
      = Some (batches ++ more)
      /\ concat more = drop (Z.to_nat i) kept
      /\ forall j b, more !! j = Some b ->
           b = take (Z.to_nat batchSize)
                    (drop (Z.to_nat i + j * Z.to_nat batchSize) kept).
Proof.
  intros Hb. induction fuel as [|fuel IH]; intros i batches Hi Hfuel; [lia|].
  cbn [batch_loop]. rewrite lt_inject_Z.
  destruct (Z.ltb_spec i (Z.of_nat (length kept))) as [Hlt|Hge].
  - rewrite slice_chunk by lia. rewrite <- inject_Z_plus.
    destruct (IH (i + batchSize)%Z
                 (batches ++ [take (Z.to_nat batchSize) (drop (Z.to_nat i) kept)]))
      as (more & -> & Hconcat & Hnth); [lia|lia|].
    exists (take (Z.to_nat batchSize) (drop (Z.to_nat i) kept) :: more).
    rewrite <- app_assoc. split; [reflexivity|]. split.
    + cbn [concat]. rewrite Hconcat.
      replace (Z.to_nat (i + batchSize)) with (Z.to_nat i + Z.to_nat batchSize) by lia.
      rewrite <- drop_drop. apply take_drop.
    + intros [|j] b Hj.
      * injection Hj as <-. by rewrite Nat.add_0_r.
      * rewrite (Hnth j b Hj). do 2 f_equal. lia.
  - exists []. rewrite app_nil_r. split; [reflexivity|]. split; [|done].
    rewrite drop_ge by lia. reflexivity.
Qed.

Lemma batch_loop_stuck (kept : list Translation.t) (batchSize : Q) :
  (batchSize <= 0)%Q -> kept <> [] ->
  forall fuel i batches,
    (i <= 0)%Q -> batch_loop fuel kept batchSize i batches = None.
Proof.
  intros Hb Hkept. induction fuel as [|fuel IH]; intros i batches Hi; [reflexivity|].
  cbn [batch_loop].
  assert (Js.lt i (inject_Z (Z.of_nat (length kept))) = true) as ->.
  { unfold Js.lt. apply negb_true_iff.
    destruct (Qle_bool _ _) eqn:E; [|done]. apply Qle_bool_iff in E.
    assert (inject_Z 1 <= inject_Z (Z.of_nat (length kept)))%Q as Hlen.
    { rewrite <- Zle_Qle. destruct kept; [done|]. cbn [length]. lia. }
    change (inject_Z 1) with 1%Q in Hlen. lra. }
  apply IH. lra.
Qed.

Lemma slice_subseteq (kept : list Translation.t) a b : Js.slice kept a b ⊆ kept.
Proof.
  unfold Js.slice. etransitivity; [apply subseteq_take|apply subseteq_drop].
Qed.

Lemma batch_loop_subseteq (kept : list Translation.t) (batchSize : Q) :
  forall fuel i batches result,
    batch_loop fuel kept batchSize i batches = Some result ->
    Forall (fun b => b ⊆ kept) batches -> Forall (fun b => b ⊆ kept) result.
Proof.
  induction fuel as [|fuel IH]; intros i batches result; [done|].
  cbn [batch_loop]. destruct (Js.lt i _).
  - intros Hloop Hsub. apply (IH _ _ _ Hloop), Forall_app. split; [exact Hsub|].
    constructor; [apply slice_subseteq|constructor].
  - by intros [= <-].
Qed.

End Batches.

Section File.
Context `{Runtime}.

(** C10, amended.  With an integer batch size of at least one the partition
    loop ends: given fuel for more tests than there are kept entries it
    yields batches that are consecutive runs of the kept entries, each of at
    most [batchSize] entries, whose concatenation in order is the list of
    kept entries.  With a batch size of zero or less and at least one kept
    entry the loop never ends, whatever the fuel, and then [validatePoFile]
    yields no result: the parameter, whose default is 10, must be positive
    and is not checked. *)
Theorem batch_partition (kept : list Translation.t) :
  (forall batchSize : Z,
      (1 <= batchSize)%Z ->
      forall fuel, length kept < fuel ->
        exists batches,
          batch_loop fuel kept (inject_Z batchSize) 0 [] = Some batches
          /\ concat batches = kept
          /\ Forall (fun b => (Z.of_nat (length b) <= batchSize)%Z) batches
          /\ forall j b, batches !! j = Some b ->
               b = take (Z.to_nat batchSize)
                        (drop (j * Z.to_nat batchSize) kept))
  /\ (forall batchSize : Q,
        (batchSize <= 0)%Q -> kept <> [] ->
        (forall fuel, batch_loop fuel kept batchSize 0 [] = None)
        /\ forall this fuel filePath targetLanguage poContent items,
             readFileSync filePath = inr poContent ->
             po_parse poContent = inr items ->
             validTranslations items = kept ->
             validatePoFile this fuel filePath targetLanguage batchSize = None)
  /\ default_batchSize = inject_Z 10.
Proof.
  split; [|split].
  - intros batchSize Hb fuel Hfuel.
    destruct (batch_loop_positive kept batchSize Hb fuel 0 []) as
        (batches & Hloop & Hconcat & Hnth); [lia|simpl; lia|].
    exists batches. split; [exact Hloop|]. split; [exact Hconcat|]. split.
    + apply Forall_forall. intros b Hin.
      apply list_elem_of_lookup in Hin as [j Hj].
      rewrite (Hnth j b Hj), length_take. lia.
    + exact Hnth.
  - intros batchSize Hb Hkept. split.
    + intros fuel. apply batch_loop_stuck; [done|done|lra].
    + intros this fuel filePath targetLanguage poContent items Hread Hparse Hk.
      unfold validatePoFile. rewrite Hread, Hparse, Hk.
      rewrite batch_loop_stuck; [done|done|done|lra].
  - reflexivity.
Qed.

(** With a positive batch size and enough fuel [validatePoFile] returns:
    it throws only what reading or parsing the file throws. *)
Lemma validatePoFile_returns this fuel filePath targetLanguage (batchSize : Z)
    poContent items :
  (1 <= batchSize)%Z ->
  readFileSync filePath = inr poContent ->
  po_parse poContent = inr items ->
  length (validTranslations items) < fuel ->
  exists issues,
    validatePoFile this fuel filePath targetLanguage (inject_Z batchSize)
    = Some (inr issues).
Proof.
  intros Hb Hread Hparse Hfuel. unfold validatePoFile. rewrite Hread, Hparse.
  destruct (batch_loop_positive (validTranslations items) batchSize Hb fuel 0 [])
    as (batches & Hloop & _); [lia|simpl; lia|].
  change (inject_Z 0) with 0%Q in Hloop. rewrite Hloop. eauto.
Qed.

End File.

Lemma batch_partition_witness :
  (exists batches,
     batch_loop 4 [Sample.entry1; Sample.entry2; Sample.entry3] 2 0 []
     = Some batches
     /\ concat batches = [Sample.entry1; Sample.entry2; Sample.entry3]
     /\ Forall (fun b => (Z.of_nat (length b) <= 2)%Z) batches
     /\ forall j b, batches !! j = Some b ->
          b = take 2 (drop (j * 2)
                           [Sample.entry1; Sample.entry2; Sample.entry3]))
  /\ @validatePoFile Sample.answered Sample.validator 1000
       "test/sample.po" "Latvian" 0 = None.
Proof.
  split.
  - refine (proj1 (@batch_partition Sample.answered
                     [Sample.entry1; Sample.entry2; Sample.entry3]) 2%Z _ 4 _);
      [lia | simpl; lia].
  - refine (proj2 (proj1 (proj2 (@batch_partition Sample.answered
                     [Sample.entry1; Sample.entry2; Sample.entry3])) 0%Q _ _)
              Sample.validator 1000 "test/sample.po"%string "Latvian"%string
              Sample.poContent Sample.items _ _ _);
      [discriminate | discriminate | reflexivity | reflexivity | reflexivity].
Defined.

(** Counterexample to C10: a batch size of one and a half is at least one,
    and the second batch holds two entries. *)
Lemma fractional_batchSize_oversized_batch :
  (1 <= 3 # 2)%Q
  /\ batch_loop 4 [Sample.entry1; Sample.entry2; Sample.entry3] (3 # 2) 0 []
     = Some [ [Sample.entry1]; [Sample.entry2; Sample.entry3] ]
  /\ ¬ (inject_Z (Z.of_nat (length [Sample.entry2; Sample.entry3])) <= 3 # 2)%Q.
Proof.
  split; [discriminate|]. split; [reflexivity|]. intros Hle. by apply Hle.
Qed.

(** * Invariants of the returned issues *)

Section Sound.
Context `{Runtime}.

Lemma emit_sound batch validation translation ps issue :
  translation ∈ batch -> Forall produced_kind ps ->
  emit validation translation ps = inr (Some issue) ->
  sound_issue batch issue.
Proof.
  intros Hin Hps. rewrite emit_spec. destruct ps as [|p ps]; [done|].
  intros [= <-]. split.
  - unfold entry_of. cbn [msgid msgstr]. by destruct translation.
  - exact (first_seen_Forall produced_kind (p :: ps) Hps).
Qed.

Lemma validate_entry_sound batch entry issue :
  validate_entry batch entry = inr (Some issue) -> sound_issue batch issue.
Proof.
  destruct entry as [validation|]; [|done]. unfold validate_entry.
  destruct (lookup_translation batch (index validation)) as [translation|] eqn:Ht;
    [|done].
  apply entry_of_lookup in Ht. rewrite pushed_problems.
  destruct (linguistic_condition validation translation).
  - destruct (issues validation) as [strings|]; [|done].
    apply emit_sound; [exact Ht|]. apply Forall_app. split.
    + apply check_produced.
    + constructor; [by right|constructor].
  - apply emit_sound; [exact Ht|apply check_produced].
Qed.

Lemma validate_entries_sound batch entries : forall acc,
  Forall (sound_issue batch) acc ->
  Forall (sound_issue batch) (fst (validate_entries batch entries acc)).
Proof.
  induction entries as [|entry entries IH]; intros acc Hacc; [exact Hacc|].
  cbn [validate_entries].
  destruct (validate_entry batch entry) as [e|[issue|]] eqn:He.
  - exact Hacc.
  - apply IH, Forall_app. split; [exact Hacc|].
    constructor; [by eapply validate_entry_sound|constructor].
  - by apply IH.
Qed.

Lemma ai_validation_sound this call batch targetLanguage :
  Forall (sound_issue batch) (fst (ai_validation this call batch targetLanguage)).
Proof.
  unfold ai_validation.
  destruct (generate _ _ _ _) as [e|text]; [constructor|].
  destruct (negb _); [constructor|].
  destruct (JSON_parse _) as [e|result]; [constructor|].
  destruct (ModelResult.translations result) as [entries|]; [|constructor].
  apply validate_entries_sound. constructor.
Qed.

Lemma validateBatch_sound this call batch targetLanguage issues :
  validateBatch this call batch targetLanguage = inr issues ->
  Forall (sound_issue batch) issues.
Proof.
  unfold validateBatch.
  pose proof (ai_validation_sound this call batch targetLanguage) as Hs.
  destruct (ai_validation this call batch targetLanguage) as [pushed [e|]].
  - destruct (is_model_not_found e); [done|]. by intros [= <-].
  - by intros [= <-].
Qed.

Lemma batch_pass_sound this targetLanguage kept batches : forall index allIssues,
  Forall (fun b => b ⊆ kept) batches ->
  Forall (sound_issue kept) allIssues ->
  Forall (sound_issue kept)
         (fst (batch_pass this targetLanguage batches index allIssues)).
Proof.
  induction batches as [|batch batches IH]; intros index allIssues Hsub Hall;
    [exact Hall|].
  apply Forall_cons in Hsub as [Hb Hsub]. cbn [batch_pass].
  destruct (validateBatch this index batch targetLanguage) as [e|batchIssues] eqn:Hv;
    [exact Hall|].
  apply IH; [exact Hsub|]. apply merge_issues_sound; [exact Hall|].
  eapply Forall_impl; [by eapply validateBatch_sound|].
  intros issue. by apply sound_issue_mono.
Qed.

Lemma technical_pass_sound kept entries : forall allIssues,
  entries ⊆ kept ->
  Forall (sound_issue kept) allIssues ->
  Forall (sound_issue kept) (technical_pass entries allIssues).
Proof.
  induction entries as [|translation entries IH]; intros allIssues Hsub Hall;
    [exact Hall|].
  cbn [technical_pass].
  assert (entries ⊆ kept) as Hsub' by (intros x Hx; apply Hsub; by right).
  destruct (0 <? length _)%nat; [|by apply IH].
  apply IH; [exact Hsub'|]. apply Forall_app. split; [exact Hall|].
  constructor; [|constructor]. split.
  - unfold entry_of. cbn [msgid msgstr].
    apply Hsub. destruct translation. by left.
  - apply check_produced.
Qed.

Lemma validatePoFile_sound this fuel filePath targetLanguage batchSize
    poContent items issues :
  readFileSync filePath = inr poContent ->
  po_parse poContent = inr items ->
  validatePoFile this fuel filePath targetLanguage batchSize = Some (inr issues) ->
  Forall (sound_issue (validTranslations items)) issues.
Proof.
  intros Hread Hparse. unfold validatePoFile. rewrite Hread, Hparse.
  destruct (batch_loop _ _ _ _ _) as [batches|] eqn:Hloop; [|done].
  intros [= <-]. apply batch_pass_sound.
  - eapply batch_loop_subseteq; [exact Hloop|constructor].
  - apply technical_pass_sound; [done|constructor].
Qed.

Lemma validTranslations_spec items translation :
  translation ∈ validTranslations items
  <-> exists item,
        item ∈ items
        /\ head (Item.msgstr item) = Some (Translation.msgstr translation)
        /\ Translation.msgstr translation ≠ ""%string
        /\ Item.msgid item = Translation.msgid translation.
Proof.
  unfold validTranslations. rewrite list_elem_of_fmap. split.
  - intros (item & -> & Hin). apply list_elem_of_In, filter_In in Hin as [Hin Ht].
    exists item. apply list_elem_of_In in Hin. unfold truthy in Ht.
    destruct (head (Item.msgstr item)) as [s|]; [|done].
    apply negb_true_iff, String.eqb_neq in Ht. by repeat split.
  - intros (item & Hin & Hhead & Hne & Hid). exists item. split.
    + rewrite Hhead. destruct translation. cbn in *. by subst.
    + apply list_elem_of_In, filter_In. split; [by apply list_elem_of_In|].
      rewrite Hhead. cbn. by apply negb_true_iff, String.eqb_neq.
Qed.

(** C6.  The kept entries are exactly the entries of the file whose first
    translation string exists and is not empty, in the order of the file.
    Every issue [validatePoFile] returns is about a kept entry, so its
    [msgstr] is not empty and no untranslated entry appears among the issues,
    whatever placeholders its [msgid] holds. *)
Theorem untranslated_entries_never_reported (this : TranslationValidator)
    (fuel : nat) (filePath targetLanguage : string) (batchSize : Q)
    (poContent : string) (items : list Item.t) (issues : list TranslationIssue) :
  readFileSync filePath = inr poContent ->
  po_parse poContent = inr items ->
  validatePoFile this fuel filePath targetLanguage batchSize = Some (inr issues) ->
  (forall translation,
      translation ∈ validTranslations items
      <-> exists item,
            item ∈ items
            /\ head (Item.msgstr item) = Some (Translation.msgstr translation)
            /\ Translation.msgstr translation ≠ ""%string
            /\ Item.msgid item = Translation.msgid translation)
  /\ validTranslations items
     = (fun item => {| Translation.msgid := Item.msgid item;
                       Translation.msgstr := default "" (head (Item.msgstr item)) |})
       <$> List.filter (fun item => truthy (head (Item.msgstr item))) items
  /\ Forall (fun issue =>
               msgstr issue ≠ ""%string
               /\ entry_of issue ∈ validTranslations items
               /\ exists item,
                    item ∈ items
                    /\ Item.msgid item = msgid issue
                    /\ head (Item.msgstr item) = Some (msgstr issue)) issues.
Proof.
  intros Hread Hparse Hrun.
  split; [apply validTranslations_spec|]. split; [reflexivity|].
  eapply Forall_impl; [by eapply validatePoFile_sound|].
  intros issue [Hin _].
  pose proof Hin as (item & Hitem & Hhead & Hne & Hid)%validTranslations_spec.
  split; [exact Hne|]. split; [exact Hin|]. by exists item.
Qed.

(** C9.  Every problem of every issue returned by [validateBatch] or by
    [validatePoFile] is a [placeholder_mismatch] or a [linguistic_review];
    a [grammar_issue] is never produced. *)
Theorem grammar_issue_never_produced (this : TranslationValidator)
    (targetLanguage : string) :
  (forall call batch issues,
      validateBatch this call batch targetLanguage = inr issues ->
      Forall (fun issue =>
                Forall (fun p => produced_kind p /\ type p ≠ grammar_issue)
                       (problems issue)) issues)
  /\ (forall fuel filePath batchSize issues,
        validatePoFile this fuel filePath targetLanguage batchSize
        = Some (inr issues) ->
        Forall (fun issue =>
                  Forall (fun p => produced_kind p /\ type p ≠ grammar_issue)
                         (problems issue)) issues).
Proof.
  assert (forall kept issue,
             sound_issue kept issue ->
             Forall (fun p => produced_kind p /\ type p ≠ grammar_issue)
                    (problems issue)) as Hkind.
  { intros kept issue [_ Hp]. eapply Forall_impl; [exact Hp|].
    intros p Hk. split; [exact Hk|]. destruct Hk as [-> | ->]; discriminate. }
  split.
  - intros call batch issues Hv.
    eapply Forall_impl; [by eapply validateBatch_sound|]. apply Hkind.
  - intros fuel filePath batchSize issues Hrun.
    pose proof Hrun as Hrun'. unfold validatePoFile in Hrun'.
    destruct (readFileSync filePath) as [e|poContent] eqn:Hread; [done|].
    destruct (po_parse poContent) as [e|items] eqn:Hparse; [done|].
    eapply Forall_impl; [by eapply validatePoFile_sound|]. apply Hkind.
Qed.

End Sound.

Lemma untranslated_entries_never_reported_witness :
  Forall (fun issue =>
            msgstr issue ≠ ""%string
            /\ entry_of issue ∈ validTranslations Sample.items
            /\ exists item,
                 item ∈ Sample.items
                 /\ Item.msgid item = msgid issue
                 /\ head (Item.msgstr item) = Some (msgstr issue))
         Sample.report.
Proof.
  refine (proj2 (proj2 (@untranslated_entries_never_reported Sample.answered
            Sample.validator 4 "test/sample.po" "Latvian" 2
            Sample.poContent Sample.items Sample.report _ _ _)));
    reflexivity.
Defined.

Lemma grammar_issue_never_produced_witness :
  Forall (fun issue =>
            Forall (fun p => produced_kind p /\ type p ≠ grammar_issue)
                   (problems issue))
         Sample.report.
Proof.
  refine (proj2 (@grammar_issue_never_produced Sample.answered
            Sample.validator "Latvian")
            4 "test/sample.po"%string 2%Q Sample.report _).
  reflexivity.
Defined.

(** * Errors during the batch pass *)

Section Includes.

Lemma prefix_spec needle : forall s,
  String.prefix needle s = true <-> exists after, s = needle +:+ after.
Proof.
  induction needle as [|c needle IH]; intros s.
  - split; [intros _; by exists s|intros _; by destruct s].
  - destruct s as [|c' s]; cbn [String.prefix].
    + split; [done|]. intros [after Ha]. discriminate Ha.
    + destruct (ascii_dec c c') as [->|Hc].
      * rewrite IH. split; intros [after Ha]; exists after.
        -- by rewrite append_cons, Ha.
        -- rewrite append_cons in Ha. by injection Ha.
      * split; [done|]. intros [after Ha]. rewrite append_cons in Ha.
        injection Ha as -> _. by destruct Hc.
Qed.

Lemma includes_spec s needle :
  Js.includes s needle = true <-> contains s needle.
Proof.
  unfold contains. induction s as [|c s IH]; cbn [Js.includes].
  - rewrite orb_false_r, prefix_spec. split.
    + intros [after Ha]. by exists ""%string, after.
    + intros ([|c before] & after & Ha); [by exists after|discriminate Ha].
  - rewrite orb_true_iff, prefix_spec, IH. split.
    + intros [[after Ha]|(before & after & Ha)].
      * by exists ""%string, after.
      * exists (String c before), after. by rewrite append_cons, Ha.
    + intros ([|c' before] & after & Ha).
      * left. by exists after.
      * right. exists before, after. rewrite append_cons in Ha. by injection Ha.
Qed.

Lemma is_model_not_found_spec error :
  is_model_not_found error = true
  <-> exists text,
        message error = Some text
        /\ contains text "model" /\ contains text "not found".
Proof.
  unfold is_model_not_found. destruct (message error) as [text|].
  - rewrite andb_true_iff, !includes_spec. split.
    + intros [? ?]. by exists text.
    + by intros (? & [= <-] & ? & ?).
  - split; [done|]. by intros (? & [=] & _).
Qed.

End Includes.

Section Errors.
Context `{Runtime}.



Lemma batch_pass_keeps this targetLanguage batches : forall index allIssues,
  keeps_issues allIssues
    (fst (batch_pass this targetLanguage batches index allIssues)).
Proof.
  induction batches as [|batch batches IH]; intros index allIssues;
    [apply keeps_issues_refl|].
  cbn [batch_pass].
  destruct (validateBatch this index batch targetLanguage) as [e|batchIssues];
    [apply keeps_issues_refl|].
  eapply keeps_issues_trans; [apply merge_issues_keeps|apply IH].
Qed.


End Errors.



(** * Construction *)

Section Construction.

Lemma initializeModel_cases config :
  (provider config = "ollama"%string
   /\ initializeModel config
      = inr (ChatOllama (or_else (baseUrl config) "http://localhost:11434")
                        (or_else (modelName config) "llama2")))
  \/ (provider config = "anthropic"%string /\ truthy (apiKey config) = false
      /\ initializeModel config = inl (Error "Anthropic API key is required"))
  \/ (provider config = "anthropic"%string /\ truthy (apiKey config) = true
      /\ exists m, initializeModel config = inr m)
  \/ (provider config = "openai"%string /\ truthy (apiKey config) = false
      /\ initializeModel config = inl (Error "OpenAI API key is required"))
  \/ (provider config = "openai"%string /\ truthy (apiKey config) = true
      /\ exists m, initializeModel config = inr m)
  \/ (¬ recognized (provider config)
      /\ initializeModel config
         = inl (Error ("Unsupported provider: " +:+ provider config))).
Proof.
  unfold initializeModel, recognized.
  destruct (String.eqb_spec (provider config) "ollama") as [E1|E1]; [by left|].
  destruct (String.eqb_spec (provider config) "anthropic") as [E2|E2].
  { destruct (truthy (apiKey config)); cbn [negb]; eauto 10. }
  destruct (String.eqb_spec (provider config) "openai") as [E3|E3].
  { destruct (truthy (apiKey config)); cbn [negb]; eauto 10. }
  do 5 right. split; [tauto|reflexivity].
Qed.

Lemma new_fails_iff config :
  (exists error, new_TranslationValidator config = inl error)
  <-> ¬ recognized (provider config)
      \/ (hosted (provider config) /\ truthy (apiKey config) = false).
Proof.
  unfold new_TranslationValidator, hosted.
  destruct (initializeModel_cases config) as
      [[Hp ->]|[(Hp & Hk & ->)|[(Hp & Hk & m & ->)|[(Hp & Hk & ->)|
       [(Hp & Hk & m & ->)|[Hp ->]]]]]]; split.
  - intros [error [=]].
  - rewrite Hp. intros [Hn|[[?|?] _]]; [|discriminate..].
    exfalso. apply Hn. by left.
  - intros _. right. auto.
  - eauto.
  - intros [error [=]].
  - intros [Hn|[_ ?]]; [|congruence]. exfalso. apply Hn. right. by left.
  - intros _. right. auto.
  - eauto.
  - intros [error [=]].
  - intros [Hn|[_ ?]]; [|congruence]. exfalso. apply Hn. right. by right.
  - intros _. by left.
  - eauto.
Qed.

Lemma new_fails_message config error :
  new_TranslationValidator config = inl error ->
  (provider config = "anthropic"%string
   /\ error = Error "Anthropic API key is required")
  \/ (provider config = "openai"%string
      /\ error = Error "OpenAI API key is required")
  \/ (¬ recognized (provider config)
      /\ error = Error ("Unsupported provider: " +:+ provider config)).
Proof.
  unfold new_TranslationValidator.
  destruct (initializeModel_cases config) as
      [[Hp ->]|[(Hp & Hk & ->)|[(Hp & Hk & m & ->)|[(Hp & Hk & ->)|
       [(Hp & Hk & m & ->)|[Hp ->]]]]]]; intros [= <-]; auto.
Qed.

(** C5.  Construction throws exactly when the provider is none of [ollama],
    [anthropic], [openai], or is [anthropic] or [openai] and the API key is
    absent, that is missing or empty.  The error names the cause.  For
    [ollama] construction always succeeds, with [http://localhost:11434] and
    [llama2] where the configuration gives no base URL and no model name.
    The check uses the configuration alone: when it fails, a validation
    started from the same configuration ends with that error whatever the
    file system and the model would answer. *)
Theorem construction_validates_config (config : ValidatorConfig) :
  ((exists error, new_TranslationValidator config = inl error)
   <-> ¬ recognized (provider config)
       \/ (hosted (provider config) /\ truthy (apiKey config) = false))
  /\ (forall error,
        new_TranslationValidator config = inl error ->
        (provider config = "anthropic"%string
         /\ error = Error "Anthropic API key is required")
        \/ (provider config = "openai"%string
            /\ error = Error "OpenAI API key is required")
        \/ (¬ recognized (provider config)
            /\ error = Error ("Unsupported provider: " +:+ provider config)))
  /\ (provider config = "ollama"%string ->
      new_TranslationValidator config
      = inr {| model :=
                 ChatOllama (or_else (baseUrl config) "http://localhost:11434")
                            (or_else (modelName config) "llama2") |}
      /\ (baseUrl config = None ->
          or_else (baseUrl config) "http://localhost:11434"
          = "http://localhost:11434"%string)
      /\ (modelName config = None ->
          or_else (modelName config) "llama2" = "llama2"%string))
  /\ (forall error,
        new_TranslationValidator config = inl error ->
        forall (R : Runtime) fuel filePath targetLanguage batchSize,
          validate_with config fuel filePath targetLanguage batchSize
          = Some (inl error)).
Proof.
  split; [apply new_fails_iff|]. split; [apply new_fails_message|].
  split; [|intros error Hnew R fuel filePath targetLanguage batchSize;
           unfold validate_with; by rewrite Hnew].
  intros Hp. split; [|by split; intros ->].
  unfold new_TranslationValidator.
  destruct (initializeModel_cases config) as
      [[_ ->]|[(Hp' & _)|[(Hp' & _)|[(Hp' & _)|[(Hp' & _)|[Hn _]]]]]];
    try reflexivity; try congruence.
  exfalso. apply Hn. by left.
Qed.

End Construction.

Lemma construction_validates_config_witness :
  new_TranslationValidator
    {| provider := "ollama"; modelName := None; apiKey := None; baseUrl := None |}
  = inr {| model := ChatOllama "http://localhost:11434" "llama2" |}
  /\ (exists error,
        new_TranslationValidator
          {| provider := "anthropic"; modelName := None;
             apiKey := Some ""%string; baseUrl := None |}
        = inl error)
  /\ @validate_with Sample.answered
       {| provider := "gemini"; modelName := None;
          apiKey := Some "secret"%string; baseUrl := None |}
       4 "test/sample.po" "Latvian" 2
     = Some (inl (Error "Unsupported provider: gemini")).
Proof.
  split; [|split].
  - refine (proj1 (proj1 (proj2 (proj2 (construction_validates_config
              {| provider := "ollama"; modelName := None;
                 apiKey := None; baseUrl := None |}))) _)).
    reflexivity.
  - refine (proj2 (proj1 (construction_validates_config
              {| provider := "anthropic"; modelName := None;
                 apiKey := Some ""%string; baseUrl := None |})) _).
    right. split; [by left|reflexivity].
  - refine (proj2 (proj2 (proj2 (construction_validates_config
              {| provider := "gemini"; modelName := None;
                 apiKey := Some "secret"%string; baseUrl := None |})))
              (Error "Unsupported provider: gemini") _ Sample.answered
              4 "test/sample.po"%string "Latvian"%string 2%Q).
    reflexivity.
Defined.

(** * Examples *)

Example check_same :
  checkPlaceholderConsistency "Hi %s" "Sveiks %s" = [].
Proof. reflexivity. Qed.

Example check_missing :
  checkPlaceholderConsistency "You have %d courses" "Tu esi pabeidzis kursus"
  = [ {| type := placeholder_mismatch;
         description := "Missing placeholder(s): %d" |} ].
Proof. reflexivity. Qed.

(** The original's array is sorted in place before the missing placeholders
    are filtered from it. *)
Example check_lists_in_sorted_order :
  checkPlaceholderConsistency "%s of %d" "nekas"
  = [ {| type := placeholder_mismatch;
         description := "Missing placeholder(s): %d, %s" |} ].
Proof. reflexivity. Qed.

(** A translation that only repeats a placeholder is flagged, and nothing is
    listed as missing. *)
Example check_only_added :
  checkPlaceholderConsistency "%s" "%s %s"
  = [ {| type := placeholder_mismatch;
         description := "Missing placeholder(s): " |} ].
Proof. reflexivity. Qed.

Example extract_positional : extractPlaceholders "%1$s and %2$d" = [].
Proof. reflexivity. Qed.

Example extract_escaped_percent : extractPlaceholders "100%%s" = ["%s"%string].
Proof. reflexivity. Qed.

Example run_answered :
  @validatePoFile Sample.answered Sample.validator 4 "test/sample.po" "Latvian" 2
  = Some (inr Sample.report).
Proof. reflexivity. Qed.

Example stringify_problem :
  JSON_stringify_problem
    {| type := linguistic_review; description := "a" +:+ newline +:+ "b" |}
  = Sample.quoted "{'type':'linguistic_review','description':'a\nb'}".
Proof. reflexivity. Qed.

(** * Further properties of the extractor and of the checker *)

Section ExtractionLaws.

Lemma ends_with_percent_cons c c' r :
  ends_with_percent (String c (String c' r)) = ends_with_percent (String c' r).
Proof. reflexivity. Qed.

Lemma extract_app_clean a : forall b,
  ends_with_percent a = false ->
  extractPlaceholders (a +:+ b) = extractPlaceholders a ++ extractPlaceholders b.
Proof.
  induction a as [| c | c c' r IHr IHt] using string_ind2; intros b Ha.
  - reflexivity.
  - rewrite append_cons, append_nil. apply extract_skip. exact Ha.
  - rewrite !append_cons, !extract_step.
    destruct (Ascii.eqb c "%" && is_conversion c') eqn:E.
    + rewrite IHr; [reflexivity|].
      destruct r as [|c'' r]; [reflexivity|]. exact Ha.
    + rewrite <- append_cons. apply IHt. exact Ha.
Qed.

(** X1.  Extraction distributes over concatenation unless a token straddles
    the seam, that is unless the first text ends with a percent sign and the
    second starts with one of the letters; in that case the straddling token
    is extracted between the placeholders of the two parts. *)
Theorem extractPlaceholders_concatenation (a b : string) :
  (ends_with_percent a && starts_with_conversion b = false ->
   extractPlaceholders (a +:+ b)
   = extractPlaceholders a ++ extractPlaceholders b)
  /\ (forall a' c b',
        a = a' +:+ "%" -> b = String c b' -> is_conversion c = true ->
        extractPlaceholders (a +:+ b)
        = extractPlaceholders a ++ String "%" (String c "")
                                   :: extractPlaceholders b').
Proof.
  split.
  - intros Hseam. apply andb_false_iff in Hseam as [Ha|Hb].
    + by apply extract_app_clean.
    + apply extract_app. destruct b; [done|exact Hb].
  - intros a' c b' -> -> Hc.
    rewrite append_assoc, append_cons, append_nil.
    rewrite !extract_app by reflexivity.
    rewrite extract_token_cons by (rewrite Hc; reflexivity).
    cbn [extractPlaceholders]. by rewrite app_nil_r.
Qed.

Lemma extractPlaceholders_concatenation_witness :
  extractPlaceholders ("Hello %s, " +:+ "you have %d")
  = extractPlaceholders "Hello %s, " ++ extractPlaceholders "you have %d"
  /\ extractPlaceholders ("50%" +:+ "discount")
     = extractPlaceholders "50%" ++ ["%d"%string] ++ extractPlaceholders "iscount".
Proof.
  split.
  - refine (proj1 (extractPlaceholders_concatenation "Hello %s, " "you have %d") _).
    reflexivity.
  - refine (proj2 (extractPlaceholders_concatenation "50%" "discount")
              "50"%string "d"%char "iscount"%string _ _ _); reflexivity.
Defined.

End ExtractionLaws.

Section CheckerLaws.

Lemma code_unit_le_trans a : forall b c,
  code_unit_le a b -> code_unit_le b c -> code_unit_le a c.
Proof.
  unfold code_unit_le, String.leb.
  induction a as [|x a IH]; intros [|y b] [|z c]; simpl; try done.
  unfold Ascii.compare.
  destruct (N.compare_spec (N_of_ascii x) (N_of_ascii y)) as [Exy|Exy|Exy];
    destruct (N.compare_spec (N_of_ascii y) (N_of_ascii z)) as [Eyz|Eyz|Eyz];
    destruct (N.compare_spec (N_of_ascii x) (N_of_ascii z)) as [Exz|Exz|Exz];
    try done; try lia; apply IH.
Qed.

Lemma code_unit_le_antisym a b : code_unit_le a b -> code_unit_le b a -> a = b.
Proof. apply String.leb_antisym. Qed.

Lemma sort_strongly_sorted l : StronglySorted code_unit_le (Js.sort l).
Proof.
  apply Sorted_StronglySorted; [|apply sort_sorted].
  intros a b c. apply code_unit_le_trans.
Qed.

Lemma sorted_permutation_eq (l1 : list string) : forall l2,
  StronglySorted code_unit_le l1 -> StronglySorted code_unit_le l2 ->
  l1 ≡ₚ l2 -> l1 = l2.
Proof.
  induction l1 as [|x l1 IH]; intros l2 H1 H2 Hp.
  - by apply Permutation_nil in Hp.
  - destruct l2 as [|y l2]; [symmetry in Hp; by apply Permutation_nil_cons in Hp|].
    apply StronglySorted_inv in H1 as [H1 Hx].
    apply StronglySorted_inv in H2 as [H2 Hy].
    assert (x = y) as ->.
    { assert (x ∈ y :: l2) as Hxin by (rewrite <- Hp; by left).
      assert (y ∈ x :: l1) as Hyin by (rewrite Hp; by left).
      apply elem_of_cons in Hxin as [->|Hxin]; [done|].
      apply elem_of_cons in Hyin as [->|Hyin]; [done|].
      rewrite Forall_forall in Hx, Hy.
      apply code_unit_le_antisym; [by apply Hx|by apply Hy]. }
    f_equal. apply IH; [done|done|]. by apply Permutation_cons_inv in Hp.
Qed.

Lemma sort_eq_iff_permutation l1 l2 : Js.sort l1 = Js.sort l2 <-> l1 ≡ₚ l2.
Proof.
  split.
  - intros E. rewrite <- (sort_perm l1), E. apply sort_perm.
  - intros Hp. apply sorted_permutation_eq; try apply sort_strongly_sorted.
    by rewrite !sort_perm.
Qed.

(** X2.  The checker reports nothing exactly when the placeholders of the
    translation are those of the original in any order, each as many times;
    so exchanging the two texts does not change whether a problem is
    reported, and a text agrees with itself.  It never reports more than one
    problem. *)
Theorem checkPlaceholderConsistency_up_to_order (msgid msgstr : string) :
  (checkPlaceholderConsistency msgid msgstr = []
   <-> extractPlaceholders msgid ≡ₚ extractPlaceholders msgstr)
  /\ (checkPlaceholderConsistency msgid msgstr = []
      <-> checkPlaceholderConsistency msgstr msgid = [])
  /\ checkPlaceholderConsistency msgid msgid = []
  /\ length (checkPlaceholderConsistency msgid msgstr) <= 1.
Proof.
  assert (forall a b,
             checkPlaceholderConsistency a b = []
             <-> extractPlaceholders a ≡ₚ extractPlaceholders b) as Hiff.
  { intros a b. rewrite check_unfold, <- sort_eq_iff_permutation.
    case_bool_decide; [tauto|]. split; [discriminate|tauto]. }
  split; [apply Hiff|]. split; [|split].
  - rewrite !Hiff. split; intros Hp; by symmetry.
  - by apply Hiff.
  - rewrite check_unfold. case_bool_decide; simpl; lia.
Qed.

Lemma join_contains sep (l : list string) x :
  x ∈ l -> contains (Js.join sep l) x.
Proof.
  induction l as [|y [|z l] IH]; [by intros ?%elem_of_nil| |].
  - intros ->%list_elem_of_singleton. exists ""%string, ""%string.
    by rewrite append_nil, append_nil_r.
  - rewrite join_cons. intros [->|Hx]%elem_of_cons.
    + by exists ""%string, (sep +:+ Js.join sep (z :: l)).
    + destruct (IH Hx) as (before & after & ->).
      exists (y +:+ sep +:+ before), after. by rewrite !append_assoc.
Qed.

(** X3.  A placeholder that occurs in the original and nowhere in the
    translation is always reported: the checker returns its one problem, and
    the description of the problem names that placeholder. *)
Theorem missing_placeholder_is_named (msgid msgstr p : string) :
  p ∈ extractPlaceholders msgid ->
  p ∉ extractPlaceholders msgstr ->
  exists text,
    checkPlaceholderConsistency msgid msgstr
    = [ {| type := placeholder_mismatch; description := text |} ]
    /\ contains text p.
Proof.
  intros Hin Hout. rewrite check_unfold.
  rewrite bool_decide_eq_false_2.
  - eexists. split; [reflexivity|].
    assert (p ∈ listed_missing msgid msgstr) as Hp.
    { unfold listed_missing. apply list_elem_of_In, filter_In. split.
      - apply list_elem_of_In. by rewrite sort_perm.
      - rewrite array_includes_sort. by rewrite bool_decide_eq_false_2. }
    destruct (join_contains ", " _ _ Hp) as (before & after & ->).
    exists (missing_prefix +:+ before), after. by rewrite !append_assoc.
  - intros E%sort_eq_iff_permutation. apply Hout. by rewrite <- E.
Qed.

Lemma missing_placeholder_is_named_witness :
  exists text,
    checkPlaceholderConsistency "Welcome to the learning path %s."
                                "Macibu cela nosaukums"
    = [ {| type := placeholder_mismatch; description := text |} ]
    /\ contains text "%s".
Proof.
  refine (missing_placeholder_is_named _ _ "%s" _ _).
  - by left.
  - apply not_elem_of_nil.
Defined.

End CheckerLaws.

(** * Further properties of the batch validator *)

Section BatchLaws.
Context `{Runtime}.

Lemma validate_entries_Forall (P : TranslationIssue -> Prop) batch entries :
  (forall entry issue,
      validate_entry batch entry = inr (Some issue) -> P issue) ->
  forall acc, Forall P acc ->
    Forall P (fst (validate_entries batch entries acc)).
Proof.
  intros HP. induction entries as [|entry entries IH]; intros acc Hacc;
    [exact Hacc|].
  cbn [validate_entries].
  destruct (validate_entry batch entry) as [e|[issue|]] eqn:He.
  - exact Hacc.
  - apply IH, Forall_app. split; [exact Hacc|].
    constructor; [by eapply HP|constructor].
  - by apply IH.
Qed.

Lemma validateBatch_Forall (P : TranslationIssue -> Prop) this call batch
    targetLanguage issues :
  (forall entry issue,
      validate_entry batch entry = inr (Some issue) -> P issue) ->
  validateBatch this call batch targetLanguage = inr issues ->
  Forall P issues.
Proof.
  intros HP. unfold validateBatch.
  assert (Forall P (fst (ai_validation this call batch targetLanguage))) as Hs.
  { unfold ai_validation.
    destruct (generate _ _ _ _) as [e|text]; [constructor|].
    destruct (negb _); [constructor|].
    destruct (JSON_parse _) as [e|result]; [constructor|].
    destruct (ModelResult.translations result) as [entries|]; [|constructor].
    apply validate_entries_Forall; [exact HP|constructor]. }
  destruct (ai_validation this call batch targetLanguage) as [pushed [e|]].
  - destruct (is_model_not_found e); [done|]. by intros [= <-].
  - by intros [= <-].
Qed.

Lemma entry_problems_shape validation translation :
  exists linguistic,
    entry_problems validation translation
    = checkPlaceholderConsistency (Translation.msgid translation)
                                  (Translation.msgstr translation)
      ++ linguistic
    /\ (linguistic = []
        \/ exists text,
             linguistic = [ {| type := linguistic_review; description := text |} ]).
Proof.
  unfold entry_problems. eexists. split; [reflexivity|].
  destruct (has_issues validation) as [[]|], (suggested_fix validation) as [s|];
    try (by left). case_decide; [right; eauto|by left].
Qed.

Lemma validate_entry_shape batch entry issue :
  validate_entry batch entry = inr (Some issue) -> batch_issue_shape issue.
Proof.
  intros Hr%validate_entry_returned.
  destruct entry as [validation|]; [|done].
  unfold expected_issue in Hr. cbn [mbind option_bind] in Hr.
  destruct (lookup_translation batch (index validation)) as [translation|];
    [|done].
  cbn [mbind option_bind] in Hr.
  destruct (entry_problems_shape validation translation) as (ling & Hps & Hling).
  pose proof (entry_problems_NoDup validation translation) as Hnd.
  cbv zeta in Hr. rewrite (first_seen_id _ Hnd) in Hr.
  destruct (entry_problems validation translation) as [|p ps] eqn:Eps; [done|].
  injection Hr as ->. exists ling.
  cbn [problems msgid msgstr].
  split; [exact Hps|]. split; [exact Hling|done].
Qed.

(** X4.  Every issue [validateBatch] returns, also when an error was absorbed,
    carries the checker's problems for its pair followed by at most one
    linguistic finding, and at least one problem in all: one or two problems,
    never two of the same kind.  The deduplication therefore never removes
    anything. *)
Theorem validateBatch_issue_shape (this : TranslationValidator) (call : nat)
    (batch : list Translation.t) (targetLanguage : string)
    (issues : list TranslationIssue) :
  validateBatch this call batch targetLanguage = inr issues ->
  Forall (fun issue =>
            batch_issue_shape issue
            /\ 1 <= length (problems issue) <= 2
            /\ NoDup (type <$> problems issue)) issues.
Proof.
  intros Hv. eapply Forall_impl.
  { eapply validateBatch_Forall; [|exact Hv]. apply validate_entry_shape. }
  intros issue Hshape. split; [exact Hshape|].
  destruct Hshape as (ling & Hps & Hling & Hne).
  rewrite Hps in *. rewrite check_unfold in *.
  case_bool_decide; destruct Hling as [->|[text ->]];
    cbn [app length fmap list_fmap type] in *.
  - done.
  - split; [lia|]. apply NoDup_singleton.
  - split; [lia|]. apply NoDup_singleton.
  - split; [lia|]. constructor; [|apply NoDup_singleton].
    by intros ?%list_elem_of_singleton.
Qed.

(** X5.  [validateBatch] throws nothing but errors whose message contains both
    [model] and [not found]; and once the file is read and parsed,
    [validatePoFile] throws nothing at all: what it throws is what reading or
    parsing the file threw. *)
Theorem only_file_errors_escape (this : TranslationValidator)
    (targetLanguage : string) :
  (forall call batch error,
      validateBatch this call batch targetLanguage = inl error ->
      exists text,
        message error = Some text
        /\ contains text "model" /\ contains text "not found")
  /\ (forall fuel filePath batchSize error,
        validatePoFile this fuel filePath targetLanguage batchSize
        = Some (inl error) ->
        readFileSync filePath = inl error
        \/ exists poContent,
             readFileSync filePath = inr poContent
             /\ po_parse poContent = inl error).
Proof.
  split.
  - intros call batch error. unfold validateBatch.
    destruct (ai_validation this call batch targetLanguage) as [pushed [e|]];
      [|done].
    destruct (is_model_not_found e) eqn:He; [|done].
    intros [= <-]. by apply is_model_not_found_spec.
  - intros fuel filePath batchSize error. unfold validatePoFile.
    destruct (readFileSync filePath) as [e|poContent]; [intros [= <-]; by left|].
    destruct (po_parse poContent) as [e|items] eqn:Hparse.
    + intros [= <-]. right. by exists poContent.
    + by destruct (batch_loop _ _ _ _ _).
Qed.

End BatchLaws.

Lemma validateBatch_issue_shape_witness :
  Forall (fun issue =>
            batch_issue_shape issue
            /\ 1 <= length (problems issue) <= 2
            /\ NoDup (type <$> problems issue)) [Sample.batchIssue1].
Proof.
  refine (@validateBatch_issue_shape Sample.flaky Sample.validator 0
            [Sample.entry1; Sample.entry2] "Latvian" [Sample.batchIssue1] _).
  reflexivity.
Defined.

Lemma only_file_errors_escape_witness :
  exists text,
    message (Error "model 'llama2' not found, try pulling it first") = Some text
    /\ contains text "model" /\ contains text "not found".
Proof.
  refine (proj1 (@only_file_errors_escape Sample.model_missing Sample.validator
                   "Latvian") 1 [Sample.entry3] _ _).
  reflexivity.
Defined.

(** * Further properties of the file validator *)

Section FileLaws.
Context `{Runtime}.

Lemma technical_pass_omap kept : forall allIssues,
  technical_pass kept allIssues = allIssues ++ omap technical_issue kept.
Proof.
  induction kept as [|translation kept IH]; intros allIssues.
  - simpl. by rewrite app_nil_r.
  - cbn [technical_pass omap list_omap]. unfold technical_issue at 1.
    destruct (checkPlaceholderConsistency _ _) as [|p ps] eqn:Hc.
    + apply IH.
    + cbn [length Nat.ltb Nat.leb]. rewrite IH, <- app_assoc. reflexivity.
Qed.

Lemma technical_issue_Some translation issue :
  technical_issue translation = Some issue ->
  entry_of issue = translation
  /\ suggestedFix issue = Some generic_fix
  /\ problems issue
     = checkPlaceholderConsistency (Translation.msgid translation)
                                   (Translation.msgstr translation)
  /\ exists text,
       problems issue
       = [ {| type := placeholder_mismatch; description := text |} ].
Proof.
  unfold technical_issue.
  destruct (checkPlaceholderConsistency _ _) as [|p ps] eqn:Hc; [done|].
  intros [= <-]. cbn [problems suggestedFix]. unfold entry_of. cbn [msgid msgstr].
  split; [by destruct translation|]. split; [done|]. split; [done|].
  rewrite check_unfold in Hc. case_bool_decide; [done|].
  injection Hc as <- <-. eauto.
Qed.

(** X6.  The technical pass pushes, in the order of the file, one issue for
    every kept entry whose placeholders are not those of its translation in
    some order, and none for the other entries.  The issue is about that
    entry, holds the one [placeholder_mismatch] problem and suggests the
    generic fix. *)
Theorem technical_pass_reports_each_mismatch (kept : list Translation.t) :
  technical_pass kept [] = omap technical_issue kept
  /\ forall translation,
       (technical_issue translation = None
        <-> extractPlaceholders (Translation.msgid translation)
            ≡ₚ extractPlaceholders (Translation.msgstr translation))
       /\ forall issue,
            technical_issue translation = Some issue ->
            entry_of issue = translation
            /\ suggestedFix issue = Some generic_fix
            /\ exists text,
                 problems issue
                 = [ {| type := placeholder_mismatch; description := text |} ].
Proof.
  split; [apply technical_pass_omap|]. intros translation. split.
  - unfold technical_issue.
    rewrite <- sort_eq_iff_permutation, check_unfold.
    case_bool_decide; [tauto|]. split; [discriminate|tauto].
  - intros issue (He & Hf & _ & Hp)%technical_issue_Some. tauto.
Qed.

Lemma batch_loop_count (kept : list Translation.t) (batchSize : Z) :
  (1 <= batchSize)%Z ->
  forall fuel i batches result,
    (0 <= i)%Z ->
    batch_loop fuel kept (inject_Z batchSize) (inject_Z i) batches = Some result ->
    exists more,
      result = batches ++ more
      /\ Forall (fun b => b <> []) more
      /\ (Z.max 0 (Z.of_nat (length kept) - i)
          <= batchSize * Z.of_nat (length more)
          < Z.max 0 (Z.of_nat (length kept) - i) + batchSize)%Z.
Proof.
  intros Hb. induction fuel as [|fuel IH]; intros i batches result Hi; [done|].
  cbn [batch_loop]. rewrite lt_inject_Z.
  destruct (Z.ltb_spec i (Z.of_nat (length kept))) as [Hlt|Hge].
  - rewrite slice_chunk by lia. rewrite <- inject_Z_plus.
    intros (more & -> & Hne & Hcount)%IH; [|lia].
    exists (take (Z.to_nat batchSize) (drop (Z.to_nat i) kept) :: more).
    rewrite <- app_assoc. split; [reflexivity|]. split.
    + constructor; [|exact Hne]. intros E%(f_equal length).
      rewrite length_take, length_drop in E. cbn [length] in E.
      clear Hcount IH.
      destruct (Nat.min_spec (Z.to_nat batchSize) (length kept - Z.to_nat i))
        as [[_ E']|[_ E']]; rewrite E' in E; lia.
    + cbn [length]. rewrite Nat2Z.inj_succ.
      rewrite (Z.max_r 0 (Z.of_nat (length kept) - i)) by lia.
      rewrite Z.mul_succ_r. clear IH.
      destruct (Z.max_spec 0 (Z.of_nat (length kept) - (i + batchSize)))
        as [[? E]|[? E]]; rewrite E in Hcount; clear E; [lia|].
      assert (Z.of_nat (length more) = 0)%Z as -> by nia. lia.
  - intros [= <-]. exists []. rewrite app_nil_r. split; [done|].
    split; [constructor|]. simpl. lia.
Qed.

(** X7.  With an integer batch size of at least one, no batch is empty and
    the number of batches, hence of calls to the model when none fails
    fatally, is the number of kept entries divided by the batch size, rounded
    up. *)
Theorem batch_count (kept : list Translation.t) (batchSize : Z) (fuel : nat)
    (batches : list (list Translation.t)) :
  (1 <= batchSize)%Z ->
  batch_loop fuel kept (inject_Z batchSize) 0 [] = Some batches ->
  Forall (fun b => b <> []) batches
  /\ (Z.of_nat (length kept) <= batchSize * Z.of_nat (length batches)
      < Z.of_nat (length kept) + batchSize)%Z.
Proof.
  intros Hb Hloop.
  destruct (batch_loop_count kept batchSize Hb fuel 0 [] batches) as
      (more & -> & Hne & Hcount); [lia|exact Hloop|].
  split; [exact Hne|]. cbn [app]. lia.
Qed.

Lemma no_kept_entries items :
  Forall (fun item => truthy (head (Item.msgstr item)) = false) items ->
  validTranslations items = [].
Proof.
  intros Hall. unfold validTranslations.
  rewrite forallb_filter_none; [done|].
  intros item Hin. rewrite Forall_forall in Hall. by apply Hall, list_elem_of_In.
Qed.

(** X8.  When no entry of the file has a non-empty first translation,
    [validatePoFile] returns the empty list, for every batch size, zero and
    negative sizes included, and whatever the model would answer. *)
Theorem nothing_translated_nothing_reported (this : TranslationValidator)
    (fuel : nat) (filePath targetLanguage : string) (batchSize : Q)
    (poContent : string) (items : list Item.t) :
  readFileSync filePath = inr poContent ->
  po_parse poContent = inr items ->
  Forall (fun item => truthy (head (Item.msgstr item)) = false) items ->
  validatePoFile this (S fuel) filePath targetLanguage batchSize
  = Some (inr []).
Proof.
  intros Hread Hparse Hnone%no_kept_entries.
  unfold validatePoFile. by rewrite Hread, Hparse, Hnone.
Qed.

(** X9.  Whatever the model answers, the issues of the technical pass are
    the first issues of the result, in the order of the file, each for its
    entry and with its problem first; so every kept entry whose placeholders
    differ has an issue in the result that starts with the checker's
    problem. *)
Theorem technical_issues_survive (this : TranslationValidator)
    (fuel : nat) (filePath targetLanguage : string) (batchSize : Q)
    (poContent : string) (items : list Item.t) (issues : list TranslationIssue) :
  readFileSync filePath = inr poContent ->
  po_parse poContent = inr items ->
  validatePoFile this fuel filePath targetLanguage batchSize = Some (inr issues) ->
  keeps_issues (technical_pass (validTranslations items) []) issues
  /\ forall translation,
       translation ∈ validTranslations items ->
       checkPlaceholderConsistency (Translation.msgid translation)
                                   (Translation.msgstr translation) <> [] ->
       exists issue,
         issue ∈ issues
         /\ entry_of issue = translation
         /\ checkPlaceholderConsistency (Translation.msgid translation)
                                        (Translation.msgstr translation)
            `prefix_of` problems issue.
Proof.
  intros Hread Hparse. unfold validatePoFile. rewrite Hread, Hparse.
  destruct (batch_loop _ _ _ _ _) as [batches|]; [|done].
  intros [= <-].
  pose proof (batch_pass_keeps this targetLanguage batches 0
                (technical_pass (validTranslations items) [])) as Hkeeps.
  split; [exact Hkeeps|].
  intros translation Hin Hne.
  assert (exists technical, technical_issue translation = Some technical)
    as [technical Ht].
  { unfold technical_issue. destruct (checkPlaceholderConsistency _ _); [done|eauto]. }
  assert (technical ∈ technical_pass (validTranslations items) []) as Htin.
  { rewrite technical_pass_omap. cbn [app]. apply list_elem_of_omap. eauto. }
  apply list_elem_of_lookup in Htin as [i Hi].
  destruct (Hkeeps i technical Hi) as (issue & Hissue & Hid & Hstr & Hprefix).
  apply technical_issue_Some in Ht as (He & _ & Hp & _).
  exists issue. split; [by eapply list_elem_of_lookup_2|]. split.
  - rewrite <- He. unfold entry_of. by rewrite Hid, Hstr.
  - by rewrite <- Hp.
Qed.

End FileLaws.

Lemma batch_count_witness :
  Forall (fun b => b <> [])
         [ [Sample.entry1; Sample.entry2]; [Sample.entry3] ]
  /\ (3 <= 2 * 2 < 3 + 2)%Z.
Proof.
  refine (batch_count [Sample.entry1; Sample.entry2; Sample.entry3] 2 4
            [ [Sample.entry1; Sample.entry2]; [Sample.entry3] ] _ _);
    [lia|reflexivity].
Defined.

Lemma nothing_translated_nothing_reported_witness :
  @validatePoFile Quiet.untranslated Sample.validator 1 "empty.po" "Latvian" 0
  = Some (inr []).
Proof.
  refine (@nothing_translated_nothing_reported Quiet.untranslated
            Sample.validator 0 "empty.po" "Latvian" 0%Q "msgid"%string
            Quiet.items _ _ _); [reflexivity|reflexivity|].
  repeat constructor.
Defined.

Lemma technical_issues_survive_witness :
  keeps_issues (technical_pass (validTranslations Sample.items) []) Sample.report
  /\ forall translation,
       translation ∈ validTranslations Sample.items ->
       checkPlaceholderConsistency (Translation.msgid translation)
                                   (Translation.msgstr translation) <> [] ->
       exists issue,
         issue ∈ Sample.report
         /\ entry_of issue = translation
         /\ checkPlaceholderConsistency (Translation.msgid translation)
                                        (Translation.msgstr translation)
            `prefix_of` problems issue.
Proof.
  refine (@technical_issues_survive Sample.answered Sample.validator 4
            "test/sample.po" "Latvian" 2%Q Sample.poContent Sample.items
            Sample.report _ _ _); reflexivity.
Defined.

(** * Further properties of the merge and of the batch pass *)

Section MergeLaws.

Lemma same_entry_iff batchIssue issue :
  same_entry batchIssue issue <-> entry_of issue = entry_of batchIssue.
Proof.
  unfold same_entry, entry_of. split; [by intros [-> ->]|].
  by intros [= -> ->].
Qed.

Lemma merge_issue_keys allIssues batchIssue :
  entry_of <$> merge_issue allIssues batchIssue
  = if decide (entry_of batchIssue ∈ entry_of <$> allIssues)
    then entry_of <$> allIssues
    else (entry_of <$> allIssues) ++ [entry_of batchIssue].
Proof.
  destruct (list_find (same_entry batchIssue) allIssues) as [[i existing]|] eqn:Hfind.
  - rewrite (merge_issue_found _ _ _ _ Hfind).
    apply list_find_Some in Hfind as (Hi & Hsame%same_entry_iff & _).
    rewrite decide_True.
    + rewrite list_fmap_insert. apply list_insert_id.
      by rewrite list_lookup_fmap, Hi.
    + rewrite <- Hsame. apply list_elem_of_fmap_2.
      by eapply list_elem_of_lookup_2.
  - rewrite (merge_issue_fresh _ _ Hfind).
    apply list_find_None in Hfind. rewrite decide_False.
    + by rewrite fmap_app.
    + intros (issue & Hk & Hin)%list_elem_of_fmap.
      rewrite Forall_forall in Hfind. by apply (Hfind issue Hin), same_entry_iff.
Qed.

Lemma merge_issue_NoDup_keys allIssues batchIssue :
  NoDup (entry_of <$> allIssues) ->
  NoDup (entry_of <$> merge_issue allIssues batchIssue).
Proof.
  intros Hnd. rewrite merge_issue_keys. case_decide as Hin; [exact Hnd|].
  apply NoDup_app. split; [exact Hnd|]. split; [|apply NoDup_singleton].
  intros k Hk ->%list_elem_of_singleton. by apply Hin.
Qed.

Lemma merge_issues_NoDup_keys batchIssues : forall allIssues,
  NoDup (entry_of <$> allIssues) ->
  NoDup (entry_of <$> merge_issues allIssues batchIssues).
Proof.
  induction batchIssues as [|b bs IH]; intros allIssues Hnd; [exact Hnd|].
  apply IH. by apply merge_issue_NoDup_keys.
Qed.

Lemma merge_issues_keys batchIssues : forall allIssues k,
  k ∈ entry_of <$> merge_issues allIssues batchIssues
  <-> k ∈ entry_of <$> allIssues \/ k ∈ entry_of <$> batchIssues.
Proof.
  induction batchIssues as [|b bs IH]; intros allIssues k.
  - cbn. rewrite elem_of_nil. tauto.
  - change (merge_issues allIssues (b :: bs))
      with (merge_issues (merge_issue allIssues b) bs).
    rewrite IH, merge_issue_keys, fmap_cons, elem_of_cons.
    case_decide as Hin.
    + split; [tauto|]. intros [?|[->|?]]; tauto.
    + rewrite elem_of_app, list_elem_of_singleton. tauto.
Qed.

Lemma merge_issue_length allIssues batchIssue :
  length allIssues <= length (merge_issue allIssues batchIssue)
  <= S (length allIssues).
Proof.
  destruct (list_find (same_entry batchIssue) allIssues) as [[i existing]|] eqn:Hfind.
  - rewrite (merge_issue_found _ _ _ _ Hfind), length_insert. lia.
  - rewrite (merge_issue_fresh _ _ Hfind), length_app. simpl. lia.
Qed.

(** X10.  Merging the issues of a batch never removes or moves an accumulated
    issue and never shortens its problems; it adds at most one issue for each
    batch issue, and afterwards the entries that have an issue are those that
    had one before together with those of the batch issues. *)
Theorem merge_only_grows (allIssues batchIssues : list TranslationIssue) :
  keeps_issues allIssues (merge_issues allIssues batchIssues)
  /\ length allIssues <= length (merge_issues allIssues batchIssues)
     <= length allIssues + length batchIssues
  /\ forall entry,
       entry ∈ entry_of <$> merge_issues allIssues batchIssues
       <-> entry ∈ entry_of <$> allIssues \/ entry ∈ entry_of <$> batchIssues.
Proof.
  split; [apply merge_issues_keeps|]. split; [|intros entry; apply merge_issues_keys].
  revert allIssues. induction batchIssues as [|b bs IH]; intros allIssues.
  - cbn. lia.
  - change (merge_issues allIssues (b :: bs))
      with (merge_issues (merge_issue allIssues b) bs).
    pose proof (IH (merge_issue allIssues b)).
    pose proof (merge_issue_length allIssues b). cbn [length]. lia.
Qed.

(** X11.  When the entry of a batch issue already has the issue of the
    technical pass, the merge reports the placeholder problem twice: the
    merged issue holds the checker's problem, the same problem again, and
    then the linguistic finding if there is one. *)
Theorem placeholder_problem_reported_twice `{Runtime}
    (batch : list Translation.t) (entry : option Validation)
    (batchIssue technical : TranslationIssue)
    (allIssues : list TranslationIssue) (i : nat) :
  validate_entry batch entry = inr (Some batchIssue) ->
  technical_issue (entry_of batchIssue) = Some technical ->
  allIssues !! i = Some technical ->
  (forall j other, allIssues !! j = Some other -> j < i ->
                   entry_of other <> entry_of batchIssue) ->
  exists p linguistic merged,
    problems technical = [p]
    /\ type p = placeholder_mismatch
    /\ merge_issue allIssues batchIssue !! i = Some merged
    /\ problems merged = p :: p :: linguistic
    /\ (linguistic = []
        \/ exists text,
             linguistic = [ {| type := linguistic_review; description := text |} ]).
Proof.
  intros (ling & Hps & Hling & _)%validate_entry_shape Htech Hi Hfirst.
  apply technical_issue_Some in Htech as (Hentry & _ & Hcheck & text & Hp).
  assert (list_find (same_entry batchIssue) allIssues = Some (i, technical))
    as Hfind.
  { apply list_find_Some. split; [exact Hi|]. split.
    - by apply same_entry_iff.
    - intros j other Hj Hlt Hsame%same_entry_iff. by eapply Hfirst. }
  exists {| type := placeholder_mismatch; description := text |}, ling,
         (merged technical batchIssue).
  split; [exact Hp|]. split; [done|]. split.
  - rewrite (merge_issue_found _ _ _ _ Hfind).
    apply list_lookup_insert_eq. by eapply lookup_lt_Some.
  - split; [|exact Hling]. cbn [merged problems].
    rewrite Hps. cbn [entry_of Translation.msgid Translation.msgstr] in Hcheck.
    by rewrite <- Hcheck, Hp.
Qed.

End MergeLaws.

Lemma placeholder_problem_reported_twice_witness :
  exists p linguistic merged,
    problems Sample.technical1 = [p]
    /\ type p = placeholder_mismatch
    /\ merge_issue [Sample.technical1] Sample.batchIssue1 !! 0 = Some merged
    /\ problems merged = p :: p :: linguistic
    /\ (linguistic = []
        \/ exists text,
             linguistic = [ {| type := linguistic_review; description := text |} ]).
Proof.
  refine (@placeholder_problem_reported_twice Sample.answered
            [Sample.entry1; Sample.entry2]
            (Some {| index := Some 1%Z; has_issues := Some true;
                     issues := Some ["Not a translation of the original"%string];
                     suggested_fix := Some "Laipni ludzam macibu cela %s."%string |})
            Sample.batchIssue1 Sample.technical1 [Sample.technical1] 0
            _ _ _ _); [reflexivity|reflexivity|reflexivity|].
  intros j other _ Hj. lia.
Defined.

Section PassLaws.
Context `{Runtime}.

Lemma technical_keys_sublist kept :
  entry_of <$> omap technical_issue kept `sublist_of` kept.
Proof.
  induction kept as [|translation kept IH]; [constructor|].
  cbn [omap list_omap].
  destruct (technical_issue translation) as [issue|] eqn:Ht.
  - apply technical_issue_Some in Ht as [<- _]. rewrite fmap_cons.
    by apply sublist_skip.
  - by apply sublist_cons.
Qed.

Lemma batch_pass_NoDup_keys this targetLanguage batches : forall index allIssues,
  NoDup (entry_of <$> allIssues) ->
  NoDup (entry_of <$> fst (batch_pass this targetLanguage batches index allIssues)).
Proof.
  induction batches as [|batch batches IH]; intros index allIssues Hnd;
    [exact Hnd|].
  cbn [batch_pass].
  destruct (validateBatch this index batch targetLanguage) as [e|batchIssues];
    [exact Hnd|].
  by apply IH, merge_issues_NoDup_keys.
Qed.

(** X12.  If no two kept entries have both the same [msgid] and the same
    [msgstr], the result holds at most one issue for each entry, and so no
    more issues than there are kept entries. *)
Theorem one_issue_per_entry (this : TranslationValidator)
    (fuel : nat) (filePath targetLanguage : string) (batchSize : Q)
    (poContent : string) (items : list Item.t) (issues : list TranslationIssue) :
  readFileSync filePath = inr poContent ->
  po_parse poContent = inr items ->
  NoDup (validTranslations items) ->
  validatePoFile this fuel filePath targetLanguage batchSize = Some (inr issues) ->
  NoDup (entry_of <$> issues)
  /\ length issues <= length (validTranslations items).
Proof.
  intros Hread Hparse Hnd Hrun.
  assert (NoDup (entry_of <$> issues)) as Hkeys.
  { unfold validatePoFile in Hrun. rewrite Hread, Hparse in Hrun.
    destruct (batch_loop _ _ _ _ _) as [batches|]; [|done].
    injection Hrun as <-. apply batch_pass_NoDup_keys.
    rewrite technical_pass_omap. cbn [app].
    eapply sublist_NoDup; [exact Hnd|apply technical_keys_sublist]. }
  split; [exact Hkeys|].
  rewrite <- (length_fmap entry_of). apply submseteq_length.
  apply NoDup_submseteq; [exact Hkeys|].
  intros entry (issue & -> & Hin)%list_elem_of_fmap.
  pose proof (validatePoFile_sound _ _ _ _ _ _ _ _ Hread Hparse Hrun) as Hsound.
  rewrite Forall_forall in Hsound. by destruct (Hsound issue Hin).
Qed.

Lemma batch_pass_silent this targetLanguage batches : forall index allIssues,
  (forall call batch,
      validateBatch this call batch targetLanguage = inr []
      \/ exists error, validateBatch this call batch targetLanguage = inl error) ->
  fst (batch_pass this targetLanguage batches index allIssues) = allIssues.
Proof.
  intros index allIssues Hsilent. revert index.
  induction batches as [|batch batches IH]; intros index; [reflexivity|].
  cbn [batch_pass].
  destruct (Hsilent index batch) as [->|[error ->]]; [apply IH|reflexivity].
Qed.

(** X13.  When the model contributes nothing, each batch yielding no issue or
    throwing, [validatePoFile] returns exactly the issues of the technical
    pass. *)
Theorem silent_model_leaves_technical_issues (this : TranslationValidator)
    (fuel : nat) (filePath targetLanguage : string) (batchSize : Q)
    (poContent : string) (items : list Item.t) (issues : list TranslationIssue) :
  readFileSync filePath = inr poContent ->
  po_parse poContent = inr items ->
  (forall call batch,
      validateBatch this call batch targetLanguage = inr []
      \/ exists error, validateBatch this call batch targetLanguage = inl error) ->
  validatePoFile this fuel filePath targetLanguage batchSize = Some (inr issues) ->
  issues = omap technical_issue (validTranslations items).
Proof.
  intros Hread Hparse Hsilent. unfold validatePoFile. rewrite Hread, Hparse.
  destruct (batch_loop _ _ _ _ _) as [batches|]; [|done].
  intros [= <-]. rewrite (batch_pass_silent _ _ _ _ _ Hsilent).
  apply technical_pass_omap.
Qed.

(** X14.  The flag [aiValidationSuccessful] ends true exactly when no batch
    makes [validateBatch] throw.  Errors that [validateBatch] absorbs leave
    it true: the summary then reports the AI validation as complete although
    batches failed. *)
Theorem ai_validation_flag (this : TranslationValidator)
    (targetLanguage : string) (batches : list (list Translation.t)) :
  forall (index : nat) (allIssues : list TranslationIssue),
    (snd (batch_pass this targetLanguage batches index allIssues) = true
     <-> forall j batch,
           batches !! j = Some batch ->
           exists issues,
             validateBatch this (index + j) batch targetLanguage = inr issues)
    /\ ((forall j batch pushed error,
            batches !! j = Some batch ->
            ai_validation this (index + j) batch targetLanguage
            = (pushed, Some error) ->
            is_model_not_found error = false) ->
        snd (batch_pass this targetLanguage batches index allIssues) = true).
Proof.
  assert (forall index allIssues,
             snd (batch_pass this targetLanguage batches index allIssues) = true
             <-> forall j batch,
                   batches !! j = Some batch ->
                   exists issues,
                     validateBatch this (index + j) batch targetLanguage
                     = inr issues) as Hiff.
  { induction batches as [|batch batches IH]; intros index allIssues.
    - split; [by intros _ j batch ?|done].
    - cbn [batch_pass].
      destruct (validateBatch this index batch targetLanguage)
        as [e|batchIssues] eqn:Hv.
      + split; [done|]. intros Hall.
        destruct (Hall 0 batch eq_refl) as [issues Hi].
        rewrite Nat.add_0_r in Hi. congruence.
      + rewrite IH. split.
        * intros Hall [|j] batch' Hj.
          -- injection Hj as <-. rewrite Nat.add_0_r. eauto.
          -- rewrite Nat.add_succ_r. by apply Hall.
        * intros Hall j batch' Hj.
          specialize (Hall (S j) batch' Hj). by rewrite Nat.add_succ_r in Hall. }
  intros index allIssues. split; [apply Hiff|].
  intros Hsoft. apply Hiff. intros j batch Hj. unfold validateBatch.
  destruct (ai_validation this (index + j) batch targetLanguage)
    as [pushed [error|]] eqn:Hai; [|eauto].
  rewrite (Hsoft j batch pushed error Hj Hai). eauto.
Qed.

Lemma batch_shape_genuine issue : batch_issue_shape issue -> genuine_issue issue.
Proof.
  intros (ling & Hps & Hling & Hne). split; [exact Hne|].
  rewrite Hps. apply Forall_app. split.
  - apply Forall_forall. by intros p Hp _.
  - destruct Hling as [->|[text ->]]; [constructor|].
    constructor; [|constructor]. discriminate.
Qed.

Lemma technical_issue_genuine translation issue :
  technical_issue translation = Some issue -> genuine_issue issue.
Proof.
  intros (He & _ & Hcheck & text & Hp)%technical_issue_Some.
  split; [by rewrite Hp|].
  apply Forall_forall. intros p Hin _.
  rewrite Hcheck, <- He in Hin. exact Hin.
Qed.

Lemma merge_issue_genuine allIssues batchIssue :
  Forall genuine_issue allIssues -> genuine_issue batchIssue ->
  Forall genuine_issue (merge_issue allIssues batchIssue).
Proof.
  intros Hall [Hne Hb].
  destruct (list_find (same_entry batchIssue) allIssues) as [[i existing]|] eqn:Hfind.
  - rewrite (merge_issue_found _ _ _ _ Hfind).
    apply list_find_Some in Hfind as (Hi & [Hid Hstr] & _).
    apply Forall_insert; [exact Hall|].
    rewrite Forall_forall in Hall.
    destruct (Hall existing) as [Hne' He]; [by eapply list_elem_of_lookup_2|].
    split.
    + cbn [merged problems]. destruct (problems existing); [done|discriminate].
    + cbn [merged problems msgid msgstr]. apply Forall_app. split; [exact He|].
      by rewrite Hid, Hstr.
  - rewrite (merge_issue_fresh _ _ Hfind). apply Forall_app. split; [exact Hall|].
    by repeat constructor.
Qed.

Lemma batch_pass_genuine this targetLanguage batches : forall index allIssues,
  Forall genuine_issue allIssues ->
  Forall genuine_issue
         (fst (batch_pass this targetLanguage batches index allIssues)).
Proof.
  induction batches as [|batch batches IH]; intros index allIssues Hall;
    [exact Hall|].
  cbn [batch_pass].
  destruct (validateBatch this index batch targetLanguage) as [e|batchIssues] eqn:Hv;
    [exact Hall|].
  apply IH.
  assert (Forall genuine_issue batchIssues) as Hb.
  { eapply validateBatch_Forall; [|exact Hv].
    intros entry issue He. by eapply batch_shape_genuine, validate_entry_shape. }
  clear Hv. revert allIssues Hall.
  induction Hb as [|b bs Hb _ IHb]; intros allIssues Hall; [exact Hall|].
  apply IHb. by apply merge_issue_genuine.
Qed.

(** X15.  Every issue [validatePoFile] returns has at least one problem, and a
    [placeholder_mismatch] among its problems is always the checker's finding
    for the issue's own pair: it is reported only where the placeholders of
    the translation are not those of the original in some order. *)
Theorem reported_mismatch_is_real (this : TranslationValidator)
    (fuel : nat) (filePath targetLanguage : string) (batchSize : Q)
    (issues : list TranslationIssue) :
  validatePoFile this fuel filePath targetLanguage batchSize = Some (inr issues) ->
  Forall (fun issue =>
            problems issue <> []
            /\ forall p,
                 p ∈ problems issue -> type p = placeholder_mismatch ->
                 p ∈ checkPlaceholderConsistency (msgid issue) (msgstr issue)
                 /\ ¬ (extractPlaceholders (msgid issue)
                       ≡ₚ extractPlaceholders (msgstr issue))) issues.
Proof.
  unfold validatePoFile.
  destruct (readFileSync filePath) as [e|poContent]; [done|].
  destruct (po_parse poContent) as [e|items]; [done|].
  destruct (batch_loop _ _ _ _ _) as [batches|]; [|done].
  intros [= <-]. eapply Forall_impl.
  - apply batch_pass_genuine. rewrite technical_pass_omap. cbn [app].
    apply Forall_forall. intros issue (t & Hin & Ht)%list_elem_of_omap.
    by eapply technical_issue_genuine.
  - intros issue [Hne Hp]. split; [exact Hne|]. intros p Hin Htype.
    rewrite Forall_forall in Hp. pose proof (Hp p Hin Htype) as Hcheck.
    split; [exact Hcheck|]. intros Hperm%sort_eq_iff_permutation.
    rewrite check_unfold, bool_decide_eq_true_2 in Hcheck by exact Hperm.
    by apply elem_of_nil in Hcheck.
Qed.

End PassLaws.

Lemma one_issue_per_entry_witness :
  NoDup (entry_of <$> Sample.report)
  /\ length Sample.report <= length (validTranslations Sample.items).
Proof.
  refine (@one_issue_per_entry Sample.answered Sample.validator 4
            "test/sample.po" "Latvian" 2%Q Sample.poContent Sample.items
            Sample.report _ _ _ _); try reflexivity.
  refine (bool_decide_unpack (NoDup (validTranslations Sample.items)) _).
  reflexivity.
Defined.

Lemma silent_model_leaves_technical_issues_witness :
  [Sample.technical1] = omap technical_issue (validTranslations Sample.items).
Proof.
  refine (@silent_model_leaves_technical_issues Quiet.chatty Sample.validator 4
            "test/sample.po" "Latvian" 2%Q Sample.poContent Sample.items
            [Sample.technical1] _ _ _ _); try reflexivity.
  intros call batch. left. reflexivity.
Defined.

Lemma ai_validation_flag_witness :
  snd (@batch_pass Quiet.chatty Sample.validator "Latvian"
         [ [Sample.entry1; Sample.entry2]; [Sample.entry3] ] 0
         [Sample.technical1]) = true.
Proof.
  refine (proj2 (@ai_validation_flag Quiet.chatty Sample.validator "Latvian"
                   [ [Sample.entry1; Sample.entry2]; [Sample.entry3] ] 0
                   [Sample.technical1]) _).
  intros j batch pushed error _ [= _ <-]. reflexivity.
Defined.

Lemma reported_mismatch_is_real_witness :
  Forall (fun issue =>
            problems issue <> []
            /\ forall p,
                 p ∈ problems issue -> type p = placeholder_mismatch ->
                 p ∈ checkPlaceholderConsistency (msgid issue) (msgstr issue)
                 /\ ¬ (extractPlaceholders (msgid issue)
                       ≡ₚ extractPlaceholders (msgstr issue))) Sample.report.
Proof.
  refine (@reported_mismatch_is_real Sample.answered Sample.validator 4
            "test/sample.po" "Latvian" 2%Q Sample.report _).
  reflexivity.
Defined.

(** * The prompt, the deduplication and the construction *)

Section Remaining.

Lemma numeral_value_toString n :
  numeral_value (Number_toString n) = Some (Z.of_nat n).
Proof.
  unfold numeral_value, Number_toString.
  rewrite NilEmpty.usu. cbn [fmap option_fmap option_map].
  by rewrite (Unsigned.of_to n).
Qed.

Lemma lookup_translation_position (batch : list Translation.t) (j : nat) :
  lookup_translation batch (Some (Z.of_nat (j + 1))) = batch !! j.
Proof.
  unfold lookup_translation. cbv zeta.
  destruct (Z.ltb_spec (Z.of_nat (j + 1) - 1) 0) as [?|_]; [lia|].
  f_equal. lia.
Qed.

(** X16.  The prompt and the answer count the entries of a batch alike, from
    one.  The text of the entry at a position starts with the decimal numeral
    of the position plus one and shows the entry's two strings; an [index]
    with the value of that numeral resolves to the same entry.  An index
    resolves exactly when it lies between one and the size of the batch; a
    missing index resolves to nothing. *)
Theorem prompt_numbers_match_index (batch : list Translation.t) :
  formattedTranslations batch
  = Js.join (newline +:+ newline) (imap render_translation batch)
  /\ (forall j translation,
         batch !! j = Some translation ->
         imap render_translation batch !! j
         = Some (Number_toString (j + 1) +:+ ". Original: "
                 +:+ Translation.msgid translation +:+ newline
                 +:+ "Translation: " +:+ Translation.msgstr translation)
         /\ exists k,
              numeral_value (Number_toString (j + 1)) = Some k
              /\ lookup_translation batch (Some k) = Some translation)
  /\ (forall k : Z,
         is_Some (lookup_translation batch (Some k))
         <-> (1 <= k <= Z.of_nat (length batch))%Z)
  /\ lookup_translation batch None = None.
Proof.
  split; [reflexivity|]. split; [|split; [|reflexivity]].
  - intros j translation Hj. split.
    + by rewrite list_lookup_imap, Hj.
    + exists (Z.of_nat (j + 1)). split; [apply numeral_value_toString|].
      by rewrite lookup_translation_position.
  - intros k. unfold lookup_translation. cbv zeta.
    destruct (Z.ltb_spec (k - 1) 0) as [Hneg|Hpos].
    + split; [by intros [? ?]|lia].
    + rewrite lookup_lt_is_Some. lia.
Qed.

Lemma prompt_numbers_match_index_witness :
  imap render_translation [Sample.entry1; Sample.entry2] !! 1
  = Some ("2. Original: Hello, world!" +:+ newline
          +:+ "Translation: Sveika, pasaule!")
  /\ exists k,
       numeral_value (Number_toString 2) = Some k
       /\ lookup_translation [Sample.entry1; Sample.entry2] (Some k)
          = Some Sample.entry2.
Proof.
  refine (proj1 (proj2 (prompt_numbers_match_index
                          [Sample.entry1; Sample.entry2]))
            1 Sample.entry2 _).
  reflexivity.
Defined.

(** X17.  The deduplication of an entry's problems never fails: every problem
    survives the passage through its JSON text unchanged, whatever characters
    its description holds.  The result has no repetition, has the same
    members as the list given, keeps their order, and is the list itself when
    the list has no repetition. *)
Theorem dedup_problems_total (ps : list ValidationProblem) :
  (forall p, JSON_parse_problem (JSON_stringify_problem p) = Some p)
  /\ exists deduplicated,
       dedup_problems ps = Some deduplicated
       /\ NoDup deduplicated
       /\ (forall p, p ∈ deduplicated <-> p ∈ ps)
       /\ deduplicated `sublist_of` ps
       /\ (NoDup ps -> deduplicated = ps).
Proof.
  split; [apply parse_stringify_problem|].
  exists (first_seen ps). split; [apply dedup_problems_first_seen|].
  destruct (first_seen_spec ps) as (Hnd & Hmem & Hsub).
  split; [exact Hnd|]. split; [exact Hmem|]. split; [exact Hsub|].
  apply first_seen_id.
Qed.

Lemma or_else_configured setting fallback value :
  configured setting fallback value <-> value = or_else setting fallback.
Proof.
  unfold configured, or_else. split.
  - intros [Hset Hdef]. destruct setting as [s|].
    + destruct (String.eqb_spec s "") as [->|Hs].
      * apply Hdef. by right.
      * by apply Hset.
    + apply Hdef. by left.
  - intros ->. destruct setting as [s|].
    + destruct (String.eqb_spec s "") as [->|Hs].
      * split; [by intros s' [= <-]|done].
      * split; [by intros s' [= <-]|]. intros [[=]|[= ->]]. done.
    + split; [by intros s' [=]|done].
Qed.

Lemma or_else_not_empty setting fallback :
  fallback <> ""%string -> or_else setting fallback <> ""%string.
Proof.
  intros Hf. unfold or_else. destruct setting as [s|]; [|exact Hf].
  by destruct (String.eqb_spec s "").
Qed.

(** X18.  A validator is built with a given model handle exactly when the
    handle is the one for the configured provider that holds the configured
    API key, not empty, for the two hosted providers, and for the model name
    and the base URL the configured text where there is one that is not
    empty, and the provider's default otherwise: [llama2] at
    [http://localhost:11434], [claude-3-sonnet-20240229], [gpt-3.5-turbo].
    No setting of a built handle is empty. *)
Theorem built_handle_agrees (config : ValidatorConfig)
    (validator : TranslationValidator) :
  (new_TranslationValidator config = inr validator
   <-> handle_agrees config (model validator))
  /\ (new_TranslationValidator config = inr validator ->
      Forall (fun setting => setting <> ""%string)
             (handle_settings (model validator))).
Proof.
  assert (new_TranslationValidator config = inr validator
          <-> handle_agrees config (model validator)) as Hiff.
  { destruct validator as [m]. cbn [model].
    unfold new_TranslationValidator, initializeModel, handle_agrees.
    destruct (String.eqb_spec (provider config) "ollama") as [Ho|Ho].
    { split.
      - intros [= <-]. split; [exact Ho|]. by rewrite !or_else_configured.
      - destruct m as [url name|key name|key name].
        + rewrite !or_else_configured. by intros (_ & -> & ->).
        + intros [Hp _]. by rewrite Hp in Ho.
        + intros [Hp _]. by rewrite Hp in Ho. }
    destruct (String.eqb_spec (provider config) "anthropic") as [Ha|Ha].
    { unfold truthy. destruct (apiKey config) as [key|] eqn:Hkey.
      - destruct (String.eqb_spec key "") as [->|Hk]; cbn [negb default].
        + split; [done|]. destruct m as [url name|key name|key name].
          * by intros [Hp _].
          * by intros (_ & [= <-] & Hne & _).
          * intros [Hp _]. by rewrite Hp in Ha.
        + split.
          * intros [= <-]. rewrite or_else_configured. done.
          * destruct m as [url name|key' name|key' name].
            -- by intros [Hp _].
            -- rewrite or_else_configured. by intros (_ & [= <-] & _ & ->).
            -- intros [Hp _]. by rewrite Hp in Ha.
      - cbn [negb]. split; [done|].
        destruct m as [url name|key name|key name].
        + by intros [Hp _].
        + by intros (_ & [=] & _).
        + intros [Hp _]. by rewrite Hp in Ha. }
    destruct (String.eqb_spec (provider config) "openai") as [Hp|Hp].
    { unfold truthy. destruct (apiKey config) as [key|] eqn:Hkey.
      - destruct (String.eqb_spec key "") as [->|Hk]; cbn [negb default].
        + split; [done|]. destruct m as [url name|key name|key name].
          * by intros [Hp' _].
          * by intros [Hp' _].
          * by intros (_ & [= <-] & Hne & _).
        + split.
          * intros [= <-]. rewrite or_else_configured. done.
          * destruct m as [url name|key' name|key' name].
            -- by intros [Hp' _].
            -- by intros [Hp' _].
            -- rewrite or_else_configured. by intros (_ & [= <-] & _ & ->).
      - cbn [negb]. split; [done|].
        destruct m as [url name|key name|key name].
        + by intros [Hp' _].
        + by intros [Hp' _].
        + by intros (_ & [=] & _). }
    split; [done|]. destruct m as [url name|key name|key name].
    - by intros [Hp' _].
    - by intros [Hp' _].
    - by intros [Hp' _]. }
  split; [exact Hiff|].
  intros Hbuilt%Hiff. destruct (model validator) as [url name|key name|key name];
    cbn [handle_agrees handle_settings] in *.
  - destruct Hbuilt as (_ & ->%or_else_configured & ->%or_else_configured).
    repeat constructor; by apply or_else_not_empty.
  - destruct Hbuilt as (_ & _ & Hk & ->%or_else_configured).
    repeat constructor; [exact Hk|by apply or_else_not_empty].
  - destruct Hbuilt as (_ & _ & Hk & ->%or_else_configured).
    repeat constructor; [exact Hk|by apply or_else_not_empty].
Qed.

Lemma built_handle_agrees_witness :
  handle_agrees
    {| provider := "openai"; modelName := Some ""%string;
       apiKey := Some "sk-test"%string; baseUrl := None |}
    (ChatOpenAI "sk-test" "gpt-3.5-turbo")
  /\ new_TranslationValidator
       {| provider := "ollama"; modelName := Some "mistral"%string;
          apiKey := None; baseUrl := None |}
     = inr {| model := ChatOllama "http://localhost:11434" "mistral" |}.
Proof.
  split.
  - refine (proj1 (proj1 (built_handle_agrees
              {| provider := "openai"; modelName := Some ""%string;
                 apiKey := Some "sk-test"%string; baseUrl := None |}
              {| model := ChatOpenAI "sk-test" "gpt-3.5-turbo" |})) _).
    reflexivity.
  - refine (proj2 (proj1 (built_handle_agrees
              {| provider := "ollama"; modelName := Some "mistral"%string;
                 apiKey := None; baseUrl := None |}
              {| model := ChatOllama "http://localhost:11434" "mistral" |})) _).
    cbn [model handle_agrees provider baseUrl modelName]. unfold configured.
    repeat split; try done.
    + intros s [= <-] _. reflexivity.
    + intros [[=]|[=]].
Defined.

End Remaining.

(** * Termination, the order of the description, and the suggested fix *)

Section Last.
Context `{Runtime}.

Lemma batch_loop_more_fuel kept batchSize : forall fuel fuel' i batches result,
  fuel <= fuel' ->
  batch_loop fuel kept batchSize i batches = Some result ->
  batch_loop fuel' kept batchSize i batches = Some result.
Proof.
  induction fuel as [|fuel IH]; intros fuel' i batches result Hle; [done|].
  destruct fuel' as [|fuel']; [lia|]. cbn [batch_loop].
  destruct (Js.lt i _); [|done]. apply IH. lia.
Qed.

(** X19.  Once the file is read and parsed, and for an integer batch size of
    at least one, [validatePoFile] ends and returns a list of issues: it
    neither throws nor loops, whatever the model does, and the list is the
    same for every amount of fuel that exceeds the number of kept entries. *)
Theorem validatePoFile_returns_issues (this : TranslationValidator)
    (filePath targetLanguage : string) (batchSize : Z)
    (poContent : string) (items : list Item.t) :
  (1 <= batchSize)%Z ->
  readFileSync filePath = inr poContent ->
  po_parse poContent = inr items ->
  exists issues,
    forall fuel,
      length (validTranslations items) < fuel ->
      validatePoFile this fuel filePath targetLanguage (inject_Z batchSize)
      = Some (inr issues).
Proof.
  intros Hb Hread Hparse.
  destruct (batch_loop_positive (validTranslations items) batchSize Hb
              (S (length (validTranslations items))) 0 [])
    as (batches & Hloop & _); [lia|simpl; lia|].
  change (inject_Z 0) with 0%Q in Hloop. cbn [app] in Hloop.
  eexists. intros fuel Hfuel. unfold validatePoFile.
  rewrite Hread, Hparse.
  rewrite (batch_loop_more_fuel _ _ _ fuel _ _ _ Hfuel Hloop). reflexivity.
Qed.

Lemma filter_strongly_sorted (f : string -> bool) (l : list string) :
  StronglySorted code_unit_le l -> StronglySorted code_unit_le (List.filter f l).
Proof.
  induction 1 as [|x l Hl IH Hx]; [constructor|].
  cbn [List.filter]. destruct (f x); [|exact IH].
  constructor; [exact IH|].
  apply Forall_forall. intros y Hy%list_elem_of_In%filter_In.
  rewrite Forall_forall in Hx. apply Hx, list_elem_of_In. tauto.
Qed.

(** X20.  The description of a mismatch lists the missing placeholders in the
    order of their code units, [%d] before [%f] before [%g] before [%s], and
    not in the order in which they stand in the original: the original's
    array is sorted in place before it is filtered. *)
Theorem missing_placeholders_listed_sorted (msgid msgstr : string) :
  Js.sort (extractPlaceholders msgid) <> Js.sort (extractPlaceholders msgstr) ->
  exists listed,
    checkPlaceholderConsistency msgid msgstr
    = [ {| type := placeholder_mismatch;
           description := missing_prefix +:+ Js.join ", " listed |} ]
    /\ StronglySorted code_unit_le listed
    /\ Forall (fun p => p ∈ tokens) listed
    /\ listed = Js.sort (List.filter
                           (fun p => negb (bool_decide
                                             (p ∈ extractPlaceholders msgstr)))
                           (extractPlaceholders msgid)).
Proof.
  intros Hne. rewrite check_unfold, bool_decide_eq_false_2 by exact Hne.
  exists (listed_missing msgid msgstr). split; [reflexivity|].
  assert (StronglySorted code_unit_le (listed_missing msgid msgstr)) as Hsorted.
  { apply filter_strongly_sorted, sort_strongly_sorted. }
  assert (listed_missing msgid msgstr
          ≡ₚ List.filter
               (fun p => negb (bool_decide (p ∈ extractPlaceholders msgstr)))
               (extractPlaceholders msgid)) as Hperm.
  { unfold listed_missing.
    erewrite filter_ext; [apply filter_perm, sort_perm|].
    intros p. cbv beta. by rewrite array_includes_sort. }
  split; [exact Hsorted|]. split.
  - apply Forall_forall. intros p Hp. rewrite Hperm in Hp.
    apply list_elem_of_In, filter_In in Hp as [Hp _].
    pose proof (extract_tokens msgid) as Ht. rewrite Forall_forall in Ht.
    by apply Ht, list_elem_of_In.
  - apply sorted_permutation_eq; [exact Hsorted|apply sort_strongly_sorted|].
    by rewrite Hperm, sort_perm.
Qed.

(** X21.  When the issue of the technical pass is merged with the batch issue
    of a model's entry, its generic suggestion is replaced by whatever the
    entry holds in [suggested_fix], unless that is the generic text itself:
    an entry without [suggested_fix] leaves the merged issue without a
    suggested fix. *)
Theorem generic_fix_overwritten (batch : list Translation.t)
    (validation : Validation) (batchIssue technical : TranslationIssue)
    (allIssues : list TranslationIssue) (i : nat) :
  validate_entry batch (Some validation) = inr (Some batchIssue) ->
  technical_issue (entry_of batchIssue) = Some technical ->
  allIssues !! i = Some technical ->
  (forall j other, allIssues !! j = Some other -> j < i ->
                   entry_of other <> entry_of batchIssue) ->
  exists merged,
    merge_issue allIssues batchIssue !! i = Some merged
    /\ suggestedFix technical = Some generic_fix
    /\ (suggested_fix validation <> Some generic_fix ->
        suggestedFix merged = suggested_fix validation)
    /\ (suggested_fix validation = None -> suggestedFix merged = None).
Proof.
  intros Hentry Htech Hi Hfirst.
  assert (suggestedFix batchIssue = suggested_fix validation) as Hfix.
  { apply validate_entry_returned in Hentry. unfold expected_issue in Hentry.
    cbn [mbind option_bind] in Hentry.
    destruct (lookup_translation batch (index validation)) as [translation|];
      [|done].
    cbn [mbind option_bind] in Hentry. cbv zeta in Hentry.
    destruct (entry_problems validation translation); [done|].
    by injection Hentry as ->. }
  apply technical_issue_Some in Htech as (Hkey & Hgeneric & _).
  assert (list_find (same_entry batchIssue) allIssues = Some (i, technical))
    as Hfind.
  { apply list_find_Some. split; [exact Hi|]. split.
    - by apply same_entry_iff.
    - intros j other Hj Hlt Hsame%same_entry_iff. by eapply Hfirst. }
  exists (merged technical batchIssue). split.
  { rewrite (merge_issue_found _ _ _ _ Hfind).
    apply list_lookup_insert_eq. by eapply lookup_lt_Some. }
  split; [exact Hgeneric|].
  assert (suggested_fix validation <> Some generic_fix ->
          suggestedFix (merged technical batchIssue) = suggested_fix validation)
    as Hover.
  { intros Hne. cbn [merged suggestedFix].
    rewrite decide_False by (by rewrite Hfix). exact Hfix. }
  split; [exact Hover|].
  intros Hnone. rewrite Hover; [exact Hnone|]. by rewrite Hnone.
Qed.

End Last.

Lemma validatePoFile_returns_issues_witness :
  exists issues,
    forall fuel,
      length (validTranslations Sample.items) < fuel ->
      @validatePoFile Sample.answered Sample.validator fuel
        "test/sample.po" "Latvian" (inject_Z 2)
      = Some (inr issues).
Proof.
  refine (@validatePoFile_returns_issues Sample.answered Sample.validator
            "test/sample.po" "Latvian" 2 Sample.poContent Sample.items _ _ _);
    [lia|reflexivity|reflexivity].
Defined.

Lemma missing_placeholders_listed_sorted_witness :
  exists listed,
    checkPlaceholderConsistency "%s of %d" "nekas"
    = [ {| type := placeholder_mismatch;
           description := missing_prefix +:+ Js.join ", " listed |} ]
    /\ StronglySorted code_unit_le listed
    /\ Forall (fun p => p ∈ tokens) listed
    /\ listed = Js.sort (List.filter
                           (fun p => negb (bool_decide
                                             (p ∈ extractPlaceholders "nekas")))
                           (extractPlaceholders "%s of %d")).
Proof.
  refine (missing_placeholders_listed_sorted "%s of %d" "nekas" _).
  discriminate.
Defined.

Lemma generic_fix_overwritten_witness :
  exists merged,
    merge_issue
      [ {| msgid := "Hello %s"; msgstr := "Sveiki";
           problems := [ {| type := placeholder_mismatch;
                            description := "Missing placeholder(s): %s" |} ];
           suggestedFix := Some generic_fix |} ]
      {| msgid := "Hello %s"; msgstr := "Sveiki";
         problems := [ {| type := placeholder_mismatch;
                          description := "Missing placeholder(s): %s" |} ];
         suggestedFix := None |} !! 0 = Some merged
    /\ Some generic_fix = Some generic_fix
    /\ (None <> Some generic_fix -> suggestedFix merged = None)
    /\ (@None string = None -> suggestedFix merged = None).
Proof.
  refine (@generic_fix_overwritten Sample.answered
            [ {| Translation.msgid := "Hello %s"; Translation.msgstr := "Sveiki" |} ]
            {| index := Some 1%Z; has_issues := Some false;
               issues := Some []; suggested_fix := None |}
            {| msgid := "Hello %s"; msgstr := "Sveiki";
               problems := [ {| type := placeholder_mismatch;
                                description := "Missing placeholder(s): %s" |} ];
               suggestedFix := None |}
            {| msgid := "Hello %s"; msgstr := "Sveiki";
               problems := [ {| type := placeholder_mismatch;
                                description := "Missing placeholder(s): %s" |} ];
               suggestedFix := Some generic_fix |}
            _ 0 _ _ _ _); [reflexivity|reflexivity|reflexivity|].
  intros j other _ Hj. lia.
Defined.
